(** * ATOMIC_OS RAM disk file store: a shallow embedding of [fs_ramdisk.cpp]

    The store lives in one reserved memory region.  The embedding keeps the
    views the C++ class keeps (superblock, allocation table, file table, data
    region) as the components of one record and threads that record through
    every operation.

    Conventions of the embedding:
    - [u32] values are [Z] with the 32-bit wrap-around written out where the
      source computes with them;
    - [u8] values are [Byte.byte];
    - a C string is the [string] of the characters before its terminator; a
      NUL character inside a [string] ends it, as it does in C;
    - a pointer argument that the source tests against [nullptr] is an
      [option]; a pointer into the file table is the index of the record
      together with the record it points to;
    - the allocation table, the file table and the data region are kept as
      three components.  In the region they are three areas that follow one
      another; the components describe the region as long as the areas do
      not overlap and every access stays inside its own area.  [laid_out]
      states this of a store; [initialize] on a region that holds the layout
      gives such a store and the operations keep it one
      ([initialize_laid_out], [run_laid_out]).  On a region too small for
      the layout [total_blocks] wraps around, the allocation table then
      runs over the file table and the data region, and the components no
      longer describe it. *)

From Stdlib Require Import ZArith Lia Ascii String.
From Stdlib.Strings Require Import Byte.
From stdpp Require Import base option list numbers strings functions.

Local Open Scope Z_scope.

(** ** Machine integers *)

Definition u32 (z : Z) : Z := z mod 2 ^ 32.

#[global] Instance byte_eq_dec : EqDecision byte := Byte.byte_eq_dec.
#[global] Instance byte_inhabited : Inhabited byte := populate x00.

(** ** Constants of [fs_ramdisk.h] *)

Definition RAMDISK_MAGIC : string := "ATOMICFS".
Definition RAMDISK_VERSION : Z := 1.
Definition RAMDISK_DEFAULT_SIZE : Z := 1024 * 1024.
Definition RAMDISK_BLOCK_SIZE : Z := 1024.
Definition RAMDISK_MAX_FILES : Z := 64.
Definition RAMDISK_FILENAME_LEN : Z := 32.

(** ** Structures

    [fat_blocks], [file_table_blocks] and the [reserved] arrays are declared in
    the header but no function reads or writes them; they only count in
    [sizeof]. *)

Record RAMDiskSuperblock := mkSuperblock {
  magic : string;
  version : Z;
  total_blocks : Z;
  free_blocks : Z;
  file_count : Z;
  block_size : Z;
  data_blocks : Z
}.

Record RAMDiskFileEntry := mkFileEntry {
  filename : string;
  start_block : Z;
  size : Z;
  timestamp : Z;
  type : Z
}.

(** [sizeof], from the declarations: [char magic[8]], eight [u32] fields and
    [u8 reserved[476]]; [char filename[32]], three [u32] fields, [u8 type]
    and [u8 reserved[15]].  Every field is aligned, so there is no padding. *)
Definition sizeof_RAMDiskSuperblock : Z := 8 + 8 * 4 + 476.
Definition sizeof_RAMDiskFileEntry : Z := RAMDISK_FILENAME_LEN + 3 * 4 + 1 + 15.

(** The class [RAMDiskFS].  The four pointers are kept as addresses
    ([superblock] points at [disk_memory] itself); [superblock], [fat],
    [file_table] and [data] are what the memory behind them holds.  [fat]
    holds the [total_blocks] entries the code scans; [data] gives the byte at
    each offset from [data_blocks]. *)
Record RAMDiskFS := mkFS {
  disk_memory : Z;
  total_size : Z;
  fat_ptr : Z;
  file_table_ptr : Z;
  data_blocks_ptr : Z;
  superblock : RAMDiskSuperblock;
  fat : list byte;
  file_table : list RAMDiskFileEntry;
  data : Z → byte
}.

(** The two counters every mutation updates. *)
Definition set_counts (sb : RAMDiskSuperblock) (count free : Z) : RAMDiskSuperblock :=
  mkSuperblock (magic sb) (version sb) (total_blocks sb) free count
               (block_size sb) (data_blocks sb).

(** ** C strings *)

Definition is_nul (c : ascii) : bool := bool_decide (c = zero).

(** [s[0]]: the first byte of a C string, the terminator when it is empty. *)
Definition first_byte (s : string) : ascii :=
  match s with
  | String c _ => c
  | EmptyString => zero
  end.

Definition char_code (c : ascii) : Z := Z.of_N (N_of_ascii c).

(** [copy_str(dst, src)]: what [dst] holds as a C string afterwards, the
    characters of [src] before its terminator.  The copy is unchecked: a
    source of [RAMDISK_FILENAME_LEN] characters or more overruns a name
    field, which this embedding does not describe (see [fits]). *)
Fixpoint copy_str (src : string) : string :=
  match src with
  | String c rest => if is_nul c then EmptyString else String c (copy_str rest)
  | EmptyString => EmptyString
  end.

(** [strcmp(s1, s2)]: walk while [*s1] is not the terminator and equals
    [*s2]; return the difference of the bytes where the walk stops. *)
Fixpoint strcmp (s1 s2 : string) : Z :=
  match s1 with
  | String c1 r1 =>
      if is_nul c1 then 0 - char_code (first_byte s2)
      else match s2 with
           | String c2 r2 =>
               if bool_decide (c1 = c2) then strcmp r1 r2
               else char_code c1 - char_code c2
           | EmptyString => char_code c1 - 0
           end
  | EmptyString => 0 - char_code (first_byte s2)
  end.

(** A name fits a record when its characters and the terminator fit the
    32-byte name field. *)
Definition fits (name : string) : Prop :=
  Z.of_nat (String.length (copy_str name)) < RAMDISK_FILENAME_LEN.

(** ** Initialisation and format *)

Definition empty_entry : RAMDiskFileEntry := mkFileEntry EmptyString 0 0 0 0.

(** [format]: the two clearing loops leave [total_blocks] zero bytes in the
    allocation table and [RAMDISK_MAX_FILES] records with [filename[0] = 0]
    and zeroed fields.  No statement of [format] writes to the data region;
    the loop over the allocation table stays in front of the file table when
    the region holds the layout ([layout_overhead size <= size]), and only
    then are the three components what the region holds afterwards. *)
Definition format (fs : RAMDiskFS) : bool * RAMDiskFS :=
  let total_blocks :=
    u32 (total_size fs - u32 (data_blocks_ptr fs - disk_memory fs)) / RAMDISK_BLOCK_SIZE in
  let sb := mkSuperblock (copy_str RAMDISK_MAGIC) RAMDISK_VERSION total_blocks
                         total_blocks 0 RAMDISK_BLOCK_SIZE total_blocks in
  (true,
   mkFS (disk_memory fs) (total_size fs) (fat_ptr fs) (file_table_ptr fs)
        (data_blocks_ptr fs) sb
        (replicate (Z.to_nat total_blocks) x00)
        (replicate (Z.to_nat RAMDISK_MAX_FILES) empty_entry)
        (data fs)).

(** [initialize(memory_address, size)].  [mem] is what the region holds
    before the call, by offset from [memory_address].  [fat + fat_size] is
    arithmetic on a [u8*]; [file_table + file_table_size] is arithmetic on a
    [RAMDiskFileEntry*], so the addend counts records. *)
Definition initialize (mem : Z → byte) (memory_address size : Z) : bool * RAMDiskFS :=
  let superblock_size := sizeof_RAMDiskSuperblock in
  let fat_size := size / RAMDISK_BLOCK_SIZE in
  let file_table_size := u32 (RAMDISK_MAX_FILES * sizeof_RAMDiskFileEntry) in
  let fat := u32 (memory_address + superblock_size) in
  let file_table := u32 (fat + fat_size) in
  let data_blocks := u32 (file_table + file_table_size * sizeof_RAMDiskFileEntry) in
  let data_off := u32 (data_blocks - memory_address) in
  format (mkFS memory_address size fat file_table data_blocks
               (mkSuperblock EmptyString 0 0 0 0 0 0) [] []
               (λ off, mem (data_off + off))).

(** [fs_initialize]: the region at the 2 MB mark, of the default size. *)
Definition fs_initialize (mem : Z → byte) : bool * RAMDiskFS :=
  initialize mem 2097152 RAMDISK_DEFAULT_SIZE.

(** ** Helpers *)

Definition calculate_blocks_needed (file_size : Z) : Z :=
  u32 (file_size + RAMDISK_BLOCK_SIZE - 1) / RAMDISK_BLOCK_SIZE.

(** [file_table[i].filename[0] != 0]. *)
Definition in_use (e : RAMDiskFileEntry) : Prop := first_byte (filename e) ≠ zero.

(** The test of the loop in [find_file_entry]. *)
Definition named (name : string) (e : RAMDiskFileEntry) : Prop :=
  in_use e ∧ strcmp (filename e) name = 0.

#[global] Instance in_use_dec e : Decision (in_use e).
Proof. unfold in_use. apply _. Defined.

#[global] Instance named_dec name e : Decision (named name e).
Proof. unfold named. apply _. Defined.

(** The [RAMDISK_MAX_FILES] records the loops over the file table visit. *)
Definition records (fs : RAMDiskFS) : list RAMDiskFileEntry :=
  take (Z.to_nat RAMDISK_MAX_FILES) (file_table fs).

Definition find_file_entry (fs : RAMDiskFS) (name : string)
  : option (nat * RAMDiskFileEntry) :=
  list_find (named name) (records fs).

Definition find_free_file_entry (fs : RAMDiskFS) : option (nat * RAMDiskFileEntry) :=
  list_find (λ e, ¬ in_use e) (records fs).

(** [find_free_block]: the first index below [total_blocks] whose entry is
    zero, [(u32)-1] when there is none. *)
Definition find_free_block (fs : RAMDiskFS) : Z :=
  match list_find (λ b, b = x00) (take (Z.to_nat (total_blocks (superblock fs))) (fat fs)) with
  | Some (i, _) => Z.of_nat i
  | None => u32 (-1)
  end.

(** ** delete_file *)

(** The loop [for (i = 0; i < blocks_needed; i++) fat[entry->start_block + i] = 0].
    An index past the table is left alone here; in the source it lands in
    the memory behind the table.  In a [laid_out] store the run of every
    live record lies inside the table, so the loop never gets there. *)
Fixpoint free_blocks_loop (n : nat) (i start : Z) (fat : list byte) : list byte :=
  match n with
  | O => fat
  | S n' => free_blocks_loop n' (i + 1) start (<[Z.to_nat (u32 (start + i)) := x00]> fat)
  end.

Definition delete_file (fs : RAMDiskFS) (name : string) : bool * RAMDiskFS :=
  match find_file_entry fs name with
  | None => (false, fs)
  | Some (idx, entry) =>
      let blocks_needed := calculate_blocks_needed (size entry) in
      let fat' := free_blocks_loop (Z.to_nat blocks_needed) 0 (start_block entry) (fat fs) in
      let file_table' := <[idx := empty_entry]> (file_table fs) in
      let sb := superblock fs in
      let sb' := set_counts sb (u32 (file_count sb - 1))
                               (u32 (free_blocks sb + blocks_needed)) in
      (true,
       mkFS (disk_memory fs) (total_size fs) (fat_ptr fs) (file_table_ptr fs)
            (data_blocks_ptr fs) sb' fat' file_table' (data fs))
  end.

(** ** create_file *)

(** Lines 112-115: an existing record of that name is deleted first. *)
Definition delete_existing (fs : RAMDiskFS) (name : string) : RAMDiskFS :=
  match find_file_entry fs name with
  | Some _ => snd (delete_file fs name)
  | None => fs
  end.

(** Lines 130-138: the scan for free blocks.  [allocated] is
    [allocated_blocks[0 .. blocks_found)].  An index past the table does not
    count as free. *)
Fixpoint scan_loop (n : nat) (i : Z) (fat : list byte) (blocks_needed : Z)
    (allocated : list Z) : list Z :=
  match n with
  | O => allocated
  | S n' =>
      if Z.of_nat (length allocated) <? blocks_needed then
        scan_loop n' (i + 1) fat blocks_needed
          (if bool_decide (fat !! Z.to_nat i = Some x00)
           then allocated ++ [i] else allocated)
      else allocated
  end.

Definition scan_free_blocks (fs : RAMDiskFS) (blocks_needed : Z) : list Z :=
  scan_loop (Z.to_nat (total_blocks (superblock fs))) 0 (fat fs) blocks_needed [].

(** Lines 145-147: [fat[allocated_blocks[i]] = 1] for [i < blocks_needed]. *)
Fixpoint mark_loop (n : nat) (i : nat) (allocated : list Z) (fat : list byte) : list byte :=
  match n with
  | O => fat
  | S n' => mark_loop n' (S i) allocated (<[Z.to_nat (allocated !!! i) := x01]> fat)
  end.

(** Lines 163-165: [dest[i] = data[bytes_copied + i]] for
    [i < bytes_in_this_block]; [dest] is an offset into the data region. *)
Fixpoint copy_bytes_loop (n : nat) (i dest : Z) (payload : list byte) (bytes_copied : Z)
    (data : Z → byte) : Z → byte :=
  match n with
  | O => data
  | S n' =>
      copy_bytes_loop n' (i + 1) dest payload bytes_copied
        (<[dest + i := payload !!! Z.to_nat (bytes_copied + i)]> data)
  end.

(** Lines 157-167: the loop over [block_idx], [n] iterations left. *)
Fixpoint copy_blocks_loop (n : nat) (block_idx : nat) (allocated : list Z)
    (payload : list byte) (size bytes_copied : Z) (data : Z → byte) : Z → byte :=
  match n with
  | O => data
  | S n' =>
      if bytes_copied <? size then
        let dest := u32 (allocated !!! block_idx * RAMDISK_BLOCK_SIZE) in
        let bytes_in_this_block :=
          if size - bytes_copied <? RAMDISK_BLOCK_SIZE
          then size - bytes_copied else RAMDISK_BLOCK_SIZE in
        copy_blocks_loop n' (S block_idx) allocated payload size
          (u32 (bytes_copied + bytes_in_this_block))
          (copy_bytes_loop (Z.to_nat bytes_in_this_block) 0 dest payload bytes_copied data)
      else data
  end.

(** Lines 117-173, on the store [delete_existing] leaves.  When
    [blocks_needed] is 0 (which takes a [size] that wraps around in
    [calculate_blocks_needed]) the source reads [allocated_blocks[0]] of an
    empty array, a word nothing has initialised.  [allocated_blocks !!! 0]
    is a fixed word there (the default element of [Z], 1), so the
    [start_block] of a record created with such a size is not the one the
    code stores; no statement below depends on it. *)
Definition create_new (fs : RAMDiskFS) (name : string) (payload : list byte) (size : Z)
  : bool * RAMDiskFS :=
  match find_free_file_entry fs with
  | None => (false, fs)
  | Some (idx, _) =>
      let blocks_needed := calculate_blocks_needed size in
      if free_blocks (superblock fs) <? blocks_needed then (false, fs)
      else
        let allocated_blocks := scan_free_blocks fs blocks_needed in
        let blocks_found := Z.of_nat (length allocated_blocks) in
        if blocks_found <? blocks_needed then (false, fs)
        else
          let fat' := mark_loop (Z.to_nat blocks_needed) 0 allocated_blocks (fat fs) in
          let entry := mkFileEntry (copy_str name) (allocated_blocks !!! 0%nat) size 0 0 in
          let file_table' := <[idx := entry]> (file_table fs) in
          let data' := copy_blocks_loop (Z.to_nat blocks_needed) 0 allocated_blocks
                                        payload size 0 (data fs) in
          let sb := superblock fs in
          let sb' := set_counts sb (u32 (file_count sb + 1))
                                   (u32 (free_blocks sb - blocks_needed)) in
          (true,
           mkFS (disk_memory fs) (total_size fs) (fat_ptr fs) (file_table_ptr fs)
                (data_blocks_ptr fs) sb' fat' file_table' data')
  end.

(** [create_file(filename, data, size)]; [None] is the null pointer. *)
Definition create_file (fs : RAMDiskFS) (filename : option string)
    (data : option (list byte)) (size : Z) : bool * RAMDiskFS :=
  match filename, data with
  | Some name, Some payload =>
      if size =? 0 then (false, fs)
      else create_new (delete_existing fs name) name payload size
  | _, _ => (false, fs)
  end.

(** ** read_file *)

(** Lines 187-189: [buffer[i] = src[i]] for [i < entry->size]; [src] is an
    offset into the data region.  The buffer is the list of the bytes the
    caller owns; a write past its end is dropped here. *)
Fixpoint read_loop (n : nat) (i src : Z) (data : Z → byte) (buffer : list byte)
  : list byte :=
  match n with
  | O => buffer
  | S n' =>
      read_loop n' (i + 1) src data (<[Z.to_nat i := data (src + i)]> buffer)
  end.

(** [read_file(filename, buffer, buffer_size)]: the result, the store and
    the caller's buffer afterwards. *)
Definition read_file (fs : RAMDiskFS) (filename : option string)
    (buffer : option (list byte)) (buffer_size : Z)
  : bool * RAMDiskFS * option (list byte) :=
  match filename, buffer with
  | Some name, Some buf =>
      match find_file_entry fs name with
      | None => (false, fs, buffer)
      | Some (_, entry) =>
          if buffer_size <? size entry then (false, fs, buffer)
          else
            let src := u32 (start_block entry * RAMDISK_BLOCK_SIZE) in
            (true, fs, Some (read_loop (Z.to_nat (size entry)) 0 src (data fs) buf))
      end
  | _, _ => (false, fs, buffer)
  end.

(** ** Lookups *)

Definition file_exists (fs : RAMDiskFS) (name : string) : bool :=
  bool_decide (is_Some (find_file_entry fs name)).

Definition get_file_count (fs : RAMDiskFS) : Z := file_count (superblock fs).

Definition get_free_space (fs : RAMDiskFS) : Z :=
  u32 (free_blocks (superblock fs) * RAMDISK_BLOCK_SIZE).

Definition get_total_space (fs : RAMDiskFS) : Z :=
  u32 (total_blocks (superblock fs) * RAMDISK_BLOCK_SIZE).

(** [get_file_info(filename, size, timestamp)]: what the caller's two
    variables hold afterwards, given what they held before; [None] is a null
    pointer. *)
Definition get_file_info (fs : RAMDiskFS) (name : string)
    (size_out timestamp_out : option Z) : option Z * option Z :=
  match find_file_entry fs name with
  | Some (_, entry) =>
      (match size_out with Some _ => Some (size entry) | None => None end,
       match timestamp_out with Some _ => Some (timestamp entry) | None => None end)
  | None => (size_out, timestamp_out)
  end.

(** ** The operations as the specification names them *)

(** [size] is the length of the payload. *)
Definition create (fs : RAMDiskFS) (name : string) (payload : list byte) : bool * RAMDiskFS :=
  create_file fs (Some name) (Some payload) (Z.of_nat (length payload)).

Definition read (fs : RAMDiskFS) (name : string) (buffer : list byte) (capacity : Z)
  : bool * RAMDiskFS * option (list byte) :=
  read_file fs (Some name) (Some buffer) capacity.

Inductive operation :=
  | Create (name : string) (payload : list byte)
  | Delete (name : string).

Definition step (fs : RAMDiskFS) (o : operation) : RAMDiskFS :=
  match o with
  | Create name payload => snd (create fs name payload)
  | Delete name => snd (delete_file fs name)
  end.

Definition run (fs : RAMDiskFS) (ops : list operation) : RAMDiskFS := foldl step fs ops.

(** The number of zero entries of the allocation table. *)
Definition zero_entries (fs : RAMDiskFS) : Z :=
  Z.of_nat (length (filter (λ b, b = x00) (fat fs))).

(** The number of records whose name field is not empty. *)
Definition live_records (fs : RAMDiskFS) : Z :=
  Z.of_nat (length (filter in_use (records fs))).

Definition zero_memory : Z → byte := λ _, x00.


(** A live record called [name]: in use, and its name field holds the
    characters of [name]. *)
Definition has_name (name : string) (e : RAMDiskFileEntry) : Prop :=
  in_use e ∧ copy_str (filename e) = copy_str name.

Definition no_live_record (fs : RAMDiskFS) (name : string) : Prop :=
  Forall (λ e, ¬ has_name name e) (records fs).

(** [ceil(len / block_size)], without wrap-around. *)
Definition blocks_for (len : Z) : Z :=
  (len + RAMDISK_BLOCK_SIZE - 1) / RAMDISK_BLOCK_SIZE.

(** A [Create] with a name that is not empty and fits the name field; any
    [Delete]. *)
Definition plain_operation (o : operation) : Prop :=
  match o with
  | Create name _ => first_byte name ≠ zero ∧ fits name
  | Delete _ => True
  end.

Definition count_accurate (fs : RAMDiskFS) : Prop :=
  file_count (superblock fs) = live_records fs.

(** The data region of the store can be addressed with 32 bits. *)
Definition addressable (fs : RAMDiskFS) : Prop :=
  total_blocks (superblock fs) * RAMDISK_BLOCK_SIZE ≤ 2 ^ 32.

(** ** The stores used in the examples *)

(** The store [fs_initialize] leaves over zeroed memory: 797 blocks. *)
Definition fresh : RAMDiskFS := snd (fs_initialize zero_memory).

(** A store over a region of 228 KiB: the data region starts at offset
    [516 + 228 + 230400 = 231144], which leaves 2 blocks. *)
Definition small : RAMDiskFS := snd (initialize zero_memory 2097152 (228 * 1024)).

(** Sixty-four one-character names, ["A"] onwards. *)
Definition letter_name (i : nat) : string := String (ascii_of_nat (65 + i)) EmptyString.

Definition full_directory : RAMDiskFS :=
  run fresh ((λ i, Create (letter_name i) [x2a]) <$> seq 0 64).

(** ** get_file_list *)

(** What [get_file_list] stores for a live record: the name copied as a C
    string, the other fields as they are. *)
Definition listed (e : RAMDiskFileEntry) : RAMDiskFileEntry :=
  mkFileEntry (copy_str (filename e)) (start_block e) (size e) (timestamp e) (type e).

(** Lines 301-310: the loop over [i], [n] iterations left.  [out] is the
    caller's array [list]; a write past its end is dropped here.  The file table
    of a store has [RAMDISK_MAX_FILES] records; a missing one is skipped. *)
Fixpoint get_file_list_loop (n i : nat) (fs : RAMDiskFS) (out : list RAMDiskFileEntry)
    (max_entries : Z) (count : nat) : Z * list RAMDiskFileEntry :=
  match n with
  | O => (Z.of_nat count, out)
  | S n' =>
      if Z.of_nat count <? max_entries then
        match file_table fs !! i with
        | Some e =>
            if decide (in_use e)
            then get_file_list_loop n' (S i) fs (<[count := listed e]> out)
                                    max_entries (S count)
            else get_file_list_loop n' (S i) fs out max_entries count
        | None => get_file_list_loop n' (S i) fs out max_entries count
        end
      else (Z.of_nat count, out)
  end.

Definition get_file_list (fs : RAMDiskFS) (out : list RAMDiskFileEntry)
    (max_entries : Z) : Z * list RAMDiskFileEntry :=
  get_file_list_loop (Z.to_nat RAMDISK_MAX_FILES) 0 fs out max_entries 0.

(** The same walk over a list of records. *)
Fixpoint list_records (l : list RAMDiskFileEntry) (out : list RAMDiskFileEntry)
    (max_entries : Z) (count : nat) : Z * list RAMDiskFileEntry :=
  match l with
  | [] => (Z.of_nat count, out)
  | e :: l' =>
      if Z.of_nat count <? max_entries then
        if decide (in_use e)
        then list_records l' (<[count := listed e]> out) max_entries (S count)
        else list_records l' out max_entries count
      else (Z.of_nat count, out)
  end.

(** ** Strings of [memory.cpp] and [kernel.cpp] *)

(** [strlen(str)]: the number of characters before the terminator. *)
Fixpoint strlen (str : string) : Z :=
  match str with
  | String c rest => if is_nul c then 0 else 1 + strlen rest
  | EmptyString => 0
  end.

(** [s[i]]; the terminator at the end of the string. *)
Definition char_at (s : string) (i : nat) : ascii :=
  match String.get i s with
  | Some c => c
  | None => zero
  end.

(** A [char] of the target is signed. *)
Definition signed_char (c : ascii) : Z :=
  if char_code c <? 128 then char_code c else char_code c - 256.

(** [strncmp(s1, s2, n)] of [kernel.cpp]: the loop over [i], [k] iterations
    left.  The loop returns at the terminator of either string, so it never
    reads past one. *)
Fixpoint strncmp_loop (k i : nat) (s1 s2 : string) : Z :=
  match k with
  | O => 0
  | S k' =>
      if bool_decide (char_at s1 i ≠ char_at s2 i)
      then signed_char (char_at s1 i) - signed_char (char_at s2 i)
      else if is_nul (char_at s1 i) then 0
      else strncmp_loop k' (S i) s1 s2
  end.

Definition strncmp (s1 s2 : string) (n : Z) : Z := strncmp_loop (Z.to_nat n) 0 s1 s2.

(** The characters of a string before its terminator. *)
Definition c_chars (s : string) : list ascii := list_ascii_of_string (copy_str s).

(** ** itoa *)

#[global] Instance ascii_inhabited : Inhabited ascii := populate zero.

Definition digits : string := "0123456789ABCDEF".

(** The [do ... while (n > 0)] loop, at most [k] iterations; [buf] is what
    has been written from [buf] up to [p].  [None] when [k] iterations do
    not end the loop.  [%] and [/] of [int] truncate towards zero. *)
Fixpoint itoa_digits_loop (k : nat) (n base : Z) (buf : list ascii) : option (list ascii) :=
  match k with
  | O => None
  | S k' =>
      let buf' := buf ++ [char_at digits (Z.to_nat (Z.rem n base))] in
      let n' := Z.quot n base in
      if 0 <? n' then itoa_digits_loop k' n' base buf' else Some buf'
  end.

(** The reversing loop [while (start < p)], at most [k] iterations. *)
Fixpoint itoa_reverse_loop (k start p : nat) (buf : list ascii) : list ascii :=
  match k with
  | O => buf
  | S k' =>
      if (start <? p)%nat then
        let temp := buf !!! start in
        itoa_reverse_loop k' (S start) (pred p) (<[p := temp]> (<[start := buf !!! p]> buf))
      else buf
  end.

(** [itoa(buf, value, base)]: the characters [buf] holds before the
    terminator afterwards.  An [int] has at most 31 binary digits, so 32
    iterations of the digit loop are allowed for. *)
Definition itoa (value base : Z) : option (list ascii) :=
  let negative := (base =? 10) && (value <? 0) in
  let prefix := if negative then ["-"%char] else [] in
  let n := if negative then - value else value in
  match itoa_digits_loop 32 n base prefix with
  | Some buf => Some (itoa_reverse_loop (length buf) (length prefix) (length buf - 1) buf)
  | None => None
  end.

(** Reading a number back: the value of a digit character, and the value
    of a string of digits, most significant first. *)
Definition digit_value (c : ascii) : option Z :=
  match list_find (λ d, d = c) (list_ascii_of_string digits) with
  | Some (i, _) => Some (Z.of_nat i)
  | None => None
  end.

Fixpoint decode (base acc : Z) (ds : list ascii) : option Z :=
  match ds with
  | [] => Some acc
  | c :: rest =>
      match digit_value c with
      | Some d => if d <? base then decode base (acc * base + d) rest else None
      | None => None
      end
  end.

(** ** The text editor's buffer ([TextEditor] of [kernel.cpp])

    [buffer] is the [char buffer[20000]] of the editor. *)

Definition newline : ascii := "010"%char.

(** [find_line_start(pos)]: the loop over [i], [k] iterations left. *)
Fixpoint find_line_start_loop (k i : nat) (buffer : list ascii) (line_start : Z) : Z :=
  match k with
  | O => line_start
  | S k' =>
      if is_nul (buffer !!! i) then line_start
      else find_line_start_loop k' (S i) buffer
             (if bool_decide (buffer !!! i = newline) then Z.of_nat i + 1 else line_start)
  end.

Definition find_line_start (buffer : list ascii) (pos : Z) : Z :=
  find_line_start_loop (Z.to_nat pos) 0 buffer 0.

(** [buffer[i] = buffer[i + 1]] for [i] upwards, [k] iterations. *)
Fixpoint shift_left_loop (k i : nat) (buffer : list ascii) : list ascii :=
  match k with
  | O => buffer
  | S k' => shift_left_loop k' (S i) (<[i := buffer !!! S i]> buffer)
  end.

(** The Backspace branch of [handle_input]: the buffer and [cursor_pos]
    afterwards. *)
Definition backspace (buffer : list ascii) (cursor_pos : Z) : list ascii * Z :=
  if 0 <? cursor_pos then
    (<[1999%nat := zero]>
       (shift_left_loop (Z.to_nat (19999 - (cursor_pos - 1)))
                        (Z.to_nat (cursor_pos - 1)) buffer),
     cursor_pos - 1)
  else (buffer, cursor_pos).

(** [buffer[i] = buffer[i - 1]] for [i] downwards, [k] iterations. *)
Fixpoint shift_right_loop (k i : nat) (buffer : list ascii) : list ascii :=
  match k with
  | O => buffer
  | S k' => shift_right_loop k' (pred i) (<[i := buffer !!! pred i]> buffer)
  end.

(** The text input branch of [handle_input], for the character [c] that
    [scan_code_to_ascii] gave. *)
Definition insert_char (buffer : list ascii) (cursor_pos : Z) (c : ascii)
  : list ascii * Z :=
  if negb (is_nul c) && (cursor_pos <? 19999) then
    (<[Z.to_nat 19999 := zero]>
       (<[Z.to_nat cursor_pos := c]>
          (shift_right_loop (Z.to_nat (19998 - cursor_pos)) (Z.to_nat 19998) buffer)),
     cursor_pos + 1)
  else (buffer, cursor_pos).

(** ** The memory map *)

Record MemoryMapEntry := mkMemoryMapEntry {
  base_addr : Z;
  length_of : Z;
  type_of : Z
}.

Definition MEMORY_AVAILABLE : Z := 1.

(** [find_largest_available_block]: the loop over the first
    [memory_map_entries] entries; [length] is a [u64], [largest] a [u32]. *)
Fixpoint find_largest_loop (memory_map : list MemoryMapEntry) (largest : Z) : Z :=
  match memory_map with
  | [] => largest
  | e :: rest =>
      find_largest_loop rest
        (if (type_of e =? MEMORY_AVAILABLE) && (largest <? length_of e)
         then u32 (length_of e) else largest)
  end.

Definition find_largest_available_block (memory_map : list MemoryMapEntry)
    (memory_map_entries : Z) : Z :=
  find_largest_loop (take (Z.to_nat memory_map_entries) memory_map) 0.

(** ** SimpleAllocator *)

Record SimpleAllocator := mkAllocator {
  memory_start : Z;
  current_ptr : Z;
  total_memory : Z
}.

Definition SimpleAllocator_initialize (start size : Z) : SimpleAllocator :=
  mkAllocator start start size.

(** [allocate(size)]: the pointer returned (0 is [nullptr]) and the
    allocator afterwards.  [~3] is the [int] -4, converted to [u32] for the
    [&]. *)
Definition allocate (a : SimpleAllocator) (size : Z) : Z * SimpleAllocator :=
  let size := Z.land (u32 (size + 3)) (u32 (Z.lnot 3)) in
  if u32 (memory_start a + total_memory a) <? u32 (current_ptr a + size)
  then (0, a)
  else (current_ptr a,
        mkAllocator (memory_start a) (u32 (current_ptr a + size)) (total_memory a)).

Definition get_used_memory (a : SimpleAllocator) : Z :=
  u32 (current_ptr a - memory_start a).

Definition get_total_memory (a : SimpleAllocator) : Z := total_memory a.

Definition reset (a : SimpleAllocator) : SimpleAllocator :=
  mkAllocator (memory_start a) (memory_start a) (total_memory a).

(** [g_allocator] after [initialize_memory]: 3 MB at the 1 MB mark. *)
Definition initial_allocator : SimpleAllocator :=
  SimpleAllocator_initialize 1048576 3145728.

(** A run of [kmalloc] calls: the pointers returned, in order. *)
Fixpoint allocate_all (a : SimpleAllocator) (sizes : list Z) : list Z * SimpleAllocator :=
  match sizes with
  | [] => ([], a)
  | size :: rest =>
      let (p, a') := allocate a size in
      let (ps, a'') := allocate_all a' rest in
      (p :: ps, a'')
  end.

(** The pool lies in the address space and [current_ptr] inside the pool. *)
Definition pool_ok (a : SimpleAllocator) : Prop :=
  0 ≤ memory_start a ∧
  memory_start a ≤ current_ptr a ≤ memory_start a + total_memory a ∧
  memory_start a + total_memory a < 2 ^ 32.

(** [size] rounded up to a multiple of 4. *)
Definition round4 (size : Z) : Z := 4 * ((size + 3) / 4).

(** ** Properties of a store *)

(** No two live records hold the same name. *)
Definition unique_names (fs : RAMDiskFS) : Prop :=
  ∀ i j e1 e2,
    records fs !! i = Some e1 → records fs !! j = Some e2 →
    in_use e1 → in_use e2 →
    copy_str (filename e1) = copy_str (filename e2) → i = j.

(** The blocks a record accounts for. *)
Definition blocks_of (e : RAMDiskFileEntry) : Z :=
  if decide (in_use e) then calculate_blocks_needed (size e) else 0.

Definition used_blocks (fs : RAMDiskFS) : Z :=
  foldr (λ e acc, blocks_of e + acc) 0 (records fs).

(** [free_blocks] and the blocks of the live records add up to
    [total_blocks]. *)
Definition accounted (fs : RAMDiskFS) : Prop :=
  0 ≤ free_blocks (superblock fs) ∧
  free_blocks (superblock fs) + used_blocks fs = total_blocks (superblock fs) ∧
  total_blocks (superblock fs) * RAMDISK_BLOCK_SIZE < 2 ^ 32.

(** The indices of the zero entries of the allocation table, in order. *)
Definition free_indices (fs : RAMDiskFS) : list Z :=
  filter (λ i, fat fs !! Z.to_nat i = Some x00)
         (seqZ 0 (Z.of_nat (Z.to_nat (total_blocks (superblock fs))))).

(** The bytes the layout takes in front of the data region. *)
Definition layout_overhead (size : Z) : Z :=
  sizeof_RAMDiskSuperblock + size / RAMDISK_BLOCK_SIZE
  + RAMDISK_MAX_FILES * sizeof_RAMDiskFileEntry * sizeof_RAMDiskFileEntry.

(** The addresses and the size that [initialize] sets. *)
Definition region (fs : RAMDiskFS) : Z * Z * Z * Z * Z :=
  (disk_memory fs, total_size fs, fat_ptr fs, file_table_ptr fs, data_blocks_ptr fs).

(** A payload short enough for the sum [size + 1023] of
    [calculate_blocks_needed] to stay below [2^32]. *)
Definition sized (payload : list byte) : Prop :=
  Z.of_nat (length payload) + RAMDISK_BLOCK_SIZE - 1 < 2 ^ 32.

(** A [Create] with a name that fits the name field and such a payload;
    any [Delete]. *)
Definition bounded_operation (o : operation) : Prop :=
  match o with
  | Create name payload => fits name ∧ sized payload
  | Delete _ => True
  end.

(** ** Stores the embedding describes

    A record the name field can hold; when it is live, its size is one
    [calculate_blocks_needed] does not wrap around on, and the run of blocks
    [start_block .. start_block + blocks_needed - 1] that [delete_file]
    frees and [read_file] reads lies below [total_blocks]. *)
Definition record_ok (total_blocks : Z) (e : RAMDiskFileEntry) : Prop :=
  fits (filename e) ∧
  (in_use e →
   0 ≤ start_block e ∧ 0 ≤ size e ∧
   size e + RAMDISK_BLOCK_SIZE - 1 < 2 ^ 32 ∧
   start_block e + calculate_blocks_needed (size e) ≤ total_blocks).

(** The areas follow one another inside the region without overlapping:
    the superblock, the [total_blocks] entries of the allocation table, the
    [RAMDISK_MAX_FILES] records of the file table, the [total_blocks] blocks
    of the data region; the region ends inside the address space. *)
Definition areas_ok (fs : RAMDiskFS) : Prop :=
  0 ≤ disk_memory fs ∧
  disk_memory fs + sizeof_RAMDiskSuperblock ≤ fat_ptr fs ∧
  0 ≤ total_blocks (superblock fs) ∧
  fat_ptr fs + total_blocks (superblock fs) ≤ file_table_ptr fs ∧
  file_table_ptr fs + RAMDISK_MAX_FILES * sizeof_RAMDiskFileEntry ≤ data_blocks_ptr fs ∧
  data_blocks_ptr fs + total_blocks (superblock fs) * RAMDISK_BLOCK_SIZE
    ≤ disk_memory fs + total_size fs ∧
  disk_memory fs + total_size fs ≤ 2 ^ 32.

(** A store the components describe: the areas do not overlap, the two
    counters are [u32] values, the allocation table has [total_blocks]
    entries, the file table [RAMDISK_MAX_FILES] records, and every record is
    [record_ok]. *)
Definition laid_out (fs : RAMDiskFS) : Prop :=
  areas_ok fs ∧
  0 ≤ file_count (superblock fs) < 2 ^ 32 ∧
  0 ≤ free_blocks (superblock fs) < 2 ^ 32 ∧
  length (fat fs) = Z.to_nat (total_blocks (superblock fs)) ∧
  length (file_table fs) = Z.to_nat RAMDISK_MAX_FILES ∧
  Forall (record_ok (total_blocks (superblock fs))) (file_table fs).

#[global] Instance record_ok_dec total_blocks e : Decision (record_ok total_blocks e).
Proof. unfold record_ok, fits. apply _. Defined.

#[global] Instance laid_out_dec fs : Decision (laid_out fs).
Proof. unfold laid_out, areas_ok. apply _. Defined.

(** A decidable side condition, settled by evaluating its decision. *)
Ltac by_evaluation := apply (bool_decide_unpack _); vm_compute; exact I.

(** * Facts about C strings *)

Section CStrings.

Lemma is_nul_true c : is_nul c = true ↔ c = zero.
Proof. unfold is_nul. apply bool_decide_eq_true. Qed.

Lemma is_nul_false c : is_nul c = false ↔ c ≠ zero.
Proof. unfold is_nul. apply bool_decide_eq_false. Qed.

Lemma char_code_inj c1 c2 : char_code c1 = char_code c2 → c1 = c2.
Proof.
  unfold char_code. intros H. apply N2Z.inj in H.
  rewrite <- (ascii_N_embedding c1), <- (ascii_N_embedding c2). by rewrite H.
Qed.

Lemma char_code_zero c : char_code c = 0 ↔ c = zero.
Proof.
  split; [intros H | by intros ->].
  apply char_code_inj. by rewrite H.
Qed.

Lemma first_byte_copy_str s : first_byte (copy_str s) = first_byte s.
Proof.
  destruct s as [|c r]; [done|]. simpl.
  destruct (is_nul c) eqn:E; [|done]. simpl. symmetry. by apply is_nul_true.
Qed.

Lemma copy_str_empty_iff s : copy_str s = EmptyString ↔ first_byte s = zero.
Proof.
  destruct s as [|c r]; [done|]. simpl.
  destruct (is_nul c) eqn:E.
  - apply is_nul_true in E. done.
  - apply is_nul_false in E. split; [done | intros; done].
Qed.

Lemma strcmp_copy_str s : strcmp (copy_str s) s = 0.
Proof.
  induction s as [|c r IH]; [done|]. simpl.
  destruct (is_nul c) eqn:E; simpl.
  - apply is_nul_true in E. by subst c.
  - rewrite E. by rewrite bool_decide_eq_true_2.
Qed.

Lemma strcmp_at_end s2 :
  0 - char_code (first_byte s2) = 0 ↔ EmptyString = copy_str s2.
Proof.
  split.
  - intros H. symmetry. apply copy_str_empty_iff, char_code_zero. lia.
  - intros H. symmetry in H. apply copy_str_empty_iff, char_code_zero in H. lia.
Qed.

Lemma strcmp_zero_iff s1 s2 : strcmp s1 s2 = 0 ↔ copy_str s1 = copy_str s2.
Proof.
  revert s2. induction s1 as [|c1 r1 IH]; intros s2; simpl.
  - apply strcmp_at_end.
  - destruct (is_nul c1) eqn:E1.
    + apply strcmp_at_end.
    + apply is_nul_false in E1. destruct s2 as [|c2 r2]; simpl.
      * rewrite <- char_code_zero in E1. split; [lia | done].
      * case_bool_decide as Hc.
        -- subst c2. rewrite (proj2 (is_nul_false c1) E1), IH.
           split; [by intros -> | by intros [= ->]].
        -- split.
           ++ intros H. destruct Hc. apply char_code_inj. lia.
           ++ destruct (is_nul c2); [done | by intros [= ? _]].
Qed.

End CStrings.

(** * Facts about the file table *)

Section FileTable.

Lemma named_iff name e : named name e ↔ has_name name e.
Proof. unfold named, has_name. by rewrite strcmp_zero_iff. Qed.

Lemma find_file_entry_None fs name :
  find_file_entry fs name = None ↔ no_live_record fs name.
Proof.
  unfold find_file_entry, no_live_record. rewrite list_find_None.
  apply Forall_iff. intros e. by rewrite named_iff.
Qed.

Lemma find_file_entry_Some fs name idx e :
  find_file_entry fs name = Some (idx, e) →
  records fs !! idx = Some e ∧ in_use e ∧
  ∀ j y, records fs !! j = Some y → (j < idx)%nat → ¬ named name y.
Proof.
  unfold find_file_entry. rewrite list_find_Some.
  intros (? & [? ?] & ?). done.
Qed.

Lemma records_lookup fs i e :
  records fs !! i = Some e → file_table fs !! i = Some e ∧ (Z.of_nat i < RAMDISK_MAX_FILES).
Proof.
  unfold records. rewrite lookup_take_Some. intros [? ?]. split; [done|].
  unfold RAMDISK_MAX_FILES in *. lia.
Qed.

Lemma records_insert fs i e :
  (Z.of_nat i < RAMDISK_MAX_FILES) →
  take (Z.to_nat RAMDISK_MAX_FILES) (<[i := e]> (file_table fs))
  = <[i := e]> (records fs).
Proof. intros ?. unfold records. apply take_insert_lt. lia. Qed.

Lemma find_free_file_entry_None fs :
  find_free_file_entry fs = None ↔ Forall in_use (records fs).
Proof.
  unfold find_free_file_entry. rewrite list_find_None.
  apply Forall_iff. intros e. split; [|tauto].
  intros H. by destruct (decide (in_use e)).
Qed.

Lemma live_records_full fs :
  live_records fs = RAMDISK_MAX_FILES → Forall in_use (records fs).
Proof.
  unfold live_records. intros H.
  assert (Hlen : (length (records fs) ≤ Z.to_nat RAMDISK_MAX_FILES)%nat).
  { unfold records. rewrite length_take. lia. }
  apply list.Forall_forall. intros e He.
  destruct (decide (in_use e)) as [|Hn]; [done|].
  pose proof (length_filter_lt in_use (records fs) e He Hn). lia.
Qed.

End FileTable.

(** * Failure paths of the operations *)

Section FailurePaths.

Lemma delete_existing_absent fs name :
  no_live_record fs name → delete_existing fs name = fs.
Proof.
  intros H. apply find_file_entry_None in H.
  unfold delete_existing. by rewrite H.
Qed.

Lemma calculate_blocks_needed_exact len :
  0 ≤ len → len + RAMDISK_BLOCK_SIZE - 1 < 2 ^ 32 →
  calculate_blocks_needed len = blocks_for len.
Proof.
  intros ? ?. unfold calculate_blocks_needed, blocks_for, u32.
  rewrite Z.mod_small; [done|]. unfold RAMDISK_BLOCK_SIZE in *. lia.
Qed.

Lemma create_new_full fs name payload size :
  Forall in_use (records fs) → create_new fs name payload size = (false, fs).
Proof.
  intros H. apply find_free_file_entry_None in H.
  unfold create_new. by rewrite H.
Qed.

Lemma create_new_no_space fs name payload size :
  free_blocks (superblock fs) < calculate_blocks_needed size →
  create_new fs name payload size = (false, fs).
Proof.
  intros H. unfold create_new.
  destruct (find_free_file_entry fs) as [[idx e]|]; [|done].
  apply Z.ltb_lt in H. by rewrite H.
Qed.

Lemma records_after_insert fs fs' idx old new :
  records fs !! idx = Some old →
  file_table fs' = <[idx := new]> (file_table fs) →
  records fs' = <[idx := new]> (records fs).
Proof.
  intros Hold Htable. apply records_lookup in Hold as [_ Hidx].
  unfold records at 1. rewrite Htable. by apply records_insert.
Qed.

Lemma delete_file_found fs name idx entry :
  find_file_entry fs name = Some (idx, entry) →
  records (snd (delete_file fs name)) = <[idx := empty_entry]> (records fs).
Proof.
  intros Hfind. unfold delete_file. rewrite Hfind. cbn [snd].
  apply find_file_entry_Some in Hfind as (Hidx & _).
  by eapply records_after_insert.
Qed.

Lemma delete_file_none fs name :
  find_file_entry fs name = None → delete_file fs name = (false, fs).
Proof. intros H. unfold delete_file. by rewrite H. Qed.

Lemma empty_entry_free : ¬ in_use empty_entry.
Proof. unfold in_use. simpl. tauto. Qed.

Lemma delete_file_unique fs name :
  unique_names fs → unique_names (snd (delete_file fs name)).
Proof.
  intros Huniq.
  destruct (find_file_entry fs name) as [[idx entry]|] eqn:Efind.
  2:{ unfold delete_file. by rewrite Efind. }
  unfold unique_names. rewrite (delete_file_found _ _ _ _ Efind).
  intros i j e1 e2 Hi Hj Hu1 Hu2 Heq.
  apply list_lookup_insert_Some in Hi as [(_ & <- & _) | [_ Hi]];
    [by destruct empty_entry_free|].
  apply list_lookup_insert_Some in Hj as [(_ & <- & _) | [_ Hj]];
    [by destruct empty_entry_free|].
  by apply (Huniq i j e1 e2).
Qed.

Lemma delete_file_removes fs name :
  unique_names fs → no_live_record (snd (delete_file fs name)) name.
Proof.
  intros Huniq.
  destruct (find_file_entry fs name) as [[idx entry]|] eqn:Efind.
  2:{ unfold delete_file. rewrite Efind. by apply find_file_entry_None. }
  unfold no_live_record. rewrite (delete_file_found _ _ _ _ Efind).
  apply find_file_entry_Some in Efind as Hfound.
  destruct Hfound as (Hidx & Huse & _).
  unfold find_file_entry in Efind. apply list_find_Some in Efind as (_ & Hnamed & _).
  apply named_iff in Hnamed as [_ Hname].
  apply Forall_lookup. intros j e Hj [Hu He].
  apply list_lookup_insert_Some in Hj as [(_ & <- & _) | [Hne Hj]];
    [by destruct empty_entry_free|].
  apply Hne. apply (Huniq idx j entry e); try done. congruence.
Qed.

Lemma u32_range z : 0 ≤ u32 z < 2 ^ 32.
Proof. unfold u32. apply Z.mod_pos_bound. lia. Qed.

Lemma create_new_cases fs name payload size :
  create_new fs name payload size = (false, fs) ∨
  ∃ idx e0,
    find_free_file_entry fs = Some (idx, e0) ∧
    calculate_blocks_needed size
      ≤ Z.of_nat (length (scan_free_blocks fs (calculate_blocks_needed size))) ∧
    create_new fs name payload size
    = (true,
       mkFS (disk_memory fs) (total_size fs) (fat_ptr fs) (file_table_ptr fs)
            (data_blocks_ptr fs)
            (set_counts (superblock fs) (u32 (file_count (superblock fs) + 1))
               (u32 (free_blocks (superblock fs) - calculate_blocks_needed size)))
            (mark_loop (Z.to_nat (calculate_blocks_needed size)) 0
               (scan_free_blocks fs (calculate_blocks_needed size)) (fat fs))
            (<[idx := mkFileEntry (copy_str name)
                        (scan_free_blocks fs (calculate_blocks_needed size) !!! 0%nat)
                        size 0 0]> (file_table fs))
            (copy_blocks_loop (Z.to_nat (calculate_blocks_needed size)) 0
               (scan_free_blocks fs (calculate_blocks_needed size)) payload size 0
               (data fs))).
Proof.
  unfold create_new.
  destruct (find_free_file_entry fs) as [[idx e0]|]; [|by left].
  destruct (_ <? _); [by left|].
  destruct (_ <? calculate_blocks_needed size) eqn:E; [by left|].
  apply Z.ltb_ge in E. right. by exists idx, e0.
Qed.

(** The loop of [delete_file] over a run inside the table zeroes the run
    and nothing else. *)
Lemma free_blocks_loop_lookup n : ∀ i start fat (j : nat),
  0 ≤ start → 0 ≤ i →
  start + i + Z.of_nat n ≤ Z.of_nat (length fat) →
  Z.of_nat (length fat) < 2 ^ 32 →
  free_blocks_loop n i start fat !! j
  = if decide (start + i ≤ Z.of_nat j < start + i + Z.of_nat n)
    then Some x00 else fat !! j.
Proof.
  induction n as [|n IH]; intros i start fat j Hstart Hi Hlen Hsmall;
    cbn [free_blocks_loop].
  - case_decide; [lia | done].
  - rewrite IH by (rewrite ?length_insert; lia).
    assert (u32 (start + i) = start + i) as ->
      by (unfold u32; apply Z.mod_small; lia).
    destruct (decide (Z.of_nat j = start + i)) as [Heq | Hne].
    + replace (Z.to_nat (start + i)) with j by lia.
      rewrite list_lookup_insert_eq by lia.
      repeat case_decide; try lia; done.
    + rewrite list_lookup_insert_ne by lia.
      repeat case_decide; try lia; done.
Qed.

(** An empty payload is refused, whatever the name. *)
Lemma create_empty_payload fs name : create fs name [] = (false, fs).
Proof. reflexivity. Qed.

(** A null name or a null payload is refused. *)
Lemma create_file_null fs filename data size :
  filename = None ∨ data = None → create_file fs filename data size = (false, fs).
Proof. intros [-> | ->]; [done | by destruct filename]. Qed.

End FailurePaths.

(** * Create, then read *)

Section RoundTrip.

Lemma copy_bytes_loop_spec n : ∀ i dest payload bytes_copied data x,
  copy_bytes_loop n i dest payload bytes_copied data x =
  if decide (dest + i ≤ x < dest + i + Z.of_nat n)
  then payload !!! Z.to_nat (bytes_copied + (x - dest)) else data x.
Proof.
  induction n as [|n IH]; intros i dest payload bc data x;
    cbn [copy_bytes_loop].
  - case_decide; [lia | done].
  - rewrite IH, Nat2Z.inj_succ.
    destruct (decide (x = dest + i)) as [-> | Hne].
    + rewrite fn_lookup_insert. repeat case_decide; try lia.
      f_equal. lia.
    + rewrite fn_lookup_insert_ne by done. repeat case_decide; try lia; done.
Qed.

Lemma read_loop_length n : ∀ i src data buffer,
  length (read_loop n i src data buffer) = length buffer.
Proof.
  induction n as [|n IH]; intros; cbn [read_loop]; [done|].
  by rewrite IH, length_insert.
Qed.

Lemma read_loop_lookup n : ∀ i src data buffer (j : nat),
  0 ≤ i →
  read_loop n i src data buffer !! j =
  if decide (i ≤ Z.of_nat j < i + Z.of_nat n ∧ (j < length buffer)%nat)
  then Some (data (src + Z.of_nat j)) else buffer !! j.
Proof.
  induction n as [|n IH]; intros i src data buffer j Hi; cbn [read_loop].
  - case_decide; [lia | done].
  - rewrite IH, length_insert, Nat2Z.inj_succ by lia.
    destruct (decide (j = Z.to_nat i)) as [-> | Hne].
    + rewrite Z2Nat.id by lia.
      destruct (decide (Z.to_nat i < length buffer)%nat) as [Hlt | Hge].
      * rewrite list_lookup_insert_eq by done.
        repeat case_decide; try lia; done.
      * rewrite list_insert_ge by lia.
        repeat case_decide; try lia; done.
    + rewrite list_lookup_insert_ne by done.
      repeat case_decide; try lia; done.
Qed.

(** The scan collects indices it has visited, in [i, i + n). *)
Lemma scan_loop_range n : ∀ i fat blocks_needed allocated x,
  x ∈ scan_loop n i fat blocks_needed allocated →
  x ∈ allocated ∨ i ≤ x < i + Z.of_nat n.
Proof.
  induction n as [|n IH]; intros i fat needed allocated x; cbn [scan_loop].
  - by left.
  - destruct (Z.of_nat (length allocated) <? needed); [|by left].
    intros H. apply IH in H as [H | H]; [|right; lia].
    case_bool_decide; [|by left].
    apply elem_of_app in H as [H | H]; [by left|].
    apply list_elem_of_singleton in H. right. lia.
Qed.

(** The scan stops as soon as it holds [blocks_needed] indices. *)
Lemma scan_loop_length n : ∀ i fat blocks_needed allocated,
  Z.of_nat (length allocated) ≤ blocks_needed →
  Z.of_nat (length (scan_loop n i fat blocks_needed allocated)) ≤ blocks_needed.
Proof.
  induction n as [|n IH]; intros i fat needed allocated Hlen; cbn [scan_loop].
  - done.
  - destruct (Z.of_nat (length allocated) <? needed) eqn:E; [|done].
    apply Z.ltb_lt in E. apply IH.
    case_bool_decide; [|lia]. rewrite length_app. simpl. lia.
Qed.

(** The copy loop of [create_file] over a run of adjacent blocks puts
    byte [j] of the payload at offset [start * block_size + j]. *)
Lemma copy_blocks_loop_contiguous start cnt payload size :
  0 ≤ start → (start + cnt) * RAMDISK_BLOCK_SIZE ≤ 2 ^ 32 → size < 2 ^ 32 →
  ∀ fuel block_idx bytes_copied data,
    Z.of_nat block_idx + Z.of_nat fuel = cnt →
    size ≤ cnt * RAMDISK_BLOCK_SIZE →
    0 ≤ bytes_copied →
    (bytes_copied < size → bytes_copied = Z.of_nat block_idx * RAMDISK_BLOCK_SIZE) →
    (∀ j, 0 ≤ j < bytes_copied → j < size →
          data (start * RAMDISK_BLOCK_SIZE + j) = payload !!! Z.to_nat j) →
    ∀ j, 0 ≤ j < size →
         copy_blocks_loop fuel block_idx (seqZ start cnt) payload size
                          bytes_copied data (start * RAMDISK_BLOCK_SIZE + j)
         = payload !!! Z.to_nat j.
Proof.
  intros Hstart Hfit Hsize.
  induction fuel as [|fuel IH];
    intros block_idx bc data Hcnt Hcap Hbc Halign Hinv j Hj;
    cbn [copy_blocks_loop].
  - apply Hinv; [|lia]. unfold RAMDISK_BLOCK_SIZE in *. lia.
  - destruct (bc <? size) eqn:E.
    2:{ apply Z.ltb_ge in E. apply Hinv; lia. }
    apply Z.ltb_lt in E. specialize (Halign E).
    rewrite lookup_total_seqZ_lt by lia.
    assert (Hdest : u32 ((start + Z.of_nat block_idx) * RAMDISK_BLOCK_SIZE)
                    = start * RAMDISK_BLOCK_SIZE + bc).
    { unfold u32. rewrite Z.mod_small; unfold RAMDISK_BLOCK_SIZE in *; lia. }
    rewrite Hdest.
    set (k := if size - bc <? RAMDISK_BLOCK_SIZE then size - bc else RAMDISK_BLOCK_SIZE).
    assert (Hk : 0 < k ≤ RAMDISK_BLOCK_SIZE ∧ bc + k ≤ size
                 ∧ (bc + k < size → k = RAMDISK_BLOCK_SIZE)).
    { unfold k. destruct (size - bc <? RAMDISK_BLOCK_SIZE) eqn:Ek.
      - apply Z.ltb_lt in Ek. lia.
      - apply Z.ltb_ge in Ek. unfold RAMDISK_BLOCK_SIZE in *. lia. }
    assert (Hbc' : u32 (bc + k) = bc + k).
    { unfold u32. rewrite Z.mod_small; lia. }
    rewrite Hbc'.
    clearbody k. apply IH; try lia.
    intros j' Hj' Hj'size. rewrite copy_bytes_loop_spec.
    case_decide as Hin.
    + f_equal. lia.
    + apply Hinv; lia.
Qed.

Lemma delete_file_superblock fs name :
  total_blocks (superblock (snd (delete_file fs name))) = total_blocks (superblock fs).
Proof.
  unfold delete_file. by destruct (find_file_entry fs name) as [[idx e]|].
Qed.

Lemma delete_existing_total_blocks fs name :
  total_blocks (superblock (delete_existing fs name)) = total_blocks (superblock fs).
Proof.
  unfold delete_existing.
  destruct (find_file_entry fs name); [apply delete_file_superblock | done].
Qed.

(** After [delete_existing], no record in front of the first free record
    is called [name]. *)
Lemma no_match_before_free fs name idx e0 :
  find_free_file_entry (delete_existing fs name) = Some (idx, e0) →
  ∀ j y, records (delete_existing fs name) !! j = Some y → (j < idx)%nat →
         ¬ named name y.
Proof.
  unfold delete_existing.
  destruct (find_file_entry fs name) as [[i e]|] eqn:Efind.
  - unfold delete_file. rewrite Efind. cbn [snd].
    apply find_file_entry_Some in Efind as (Hi & _ & Hmin).
    apply records_lookup in Hi as Hi'. destruct Hi' as [_ Hi64].
    unfold find_free_file_entry, records at 1 2. cbn [file_table].
    rewrite records_insert by done.
    intros Hfree j y Hj Hlt.
    apply list_find_Some in Hfree as (_ & _ & Hfirst).
    assert (idx ≤ i)%nat as Hle.
    { destruct (decide (idx ≤ i)%nat) as [|Hgt]; [done|].
      exfalso. apply (Hfirst i empty_entry); [|lia|].
      - apply list_lookup_insert_eq. by eapply lookup_lt_Some.
      - unfold in_use. simpl. tauto. }
    rewrite list_lookup_insert_ne in Hj by lia.
    apply (Hmin j y); [done | lia].
  - intros _ j y Hj _.
    unfold find_file_entry in Efind. rewrite list_find_None in Efind.
    by eapply Forall_lookup_1 in Efind.
Qed.

(** What a successful [create_new] has done. *)
Lemma create_new_true fs name payload size fs' :
  create_new fs name payload size = (true, fs') →
  ∃ idx e0,
    find_free_file_entry fs = Some (idx, e0) ∧
    calculate_blocks_needed size
      ≤ Z.of_nat (length (scan_free_blocks fs (calculate_blocks_needed size))) ∧
    file_table fs'
      = <[idx := mkFileEntry (copy_str name)
                   (scan_free_blocks fs (calculate_blocks_needed size) !!! 0%nat)
                   size 0 0]> (file_table fs) ∧
    data fs'
      = copy_blocks_loop (Z.to_nat (calculate_blocks_needed size)) 0
          (scan_free_blocks fs (calculate_blocks_needed size)) payload size 0 (data fs).
Proof.
  unfold create_new.
  destruct (find_free_file_entry fs) as [[idx e0]|]; [|done].
  destruct (free_blocks (superblock fs) <? calculate_blocks_needed size); [done|].
  destruct (_ <? calculate_blocks_needed size) eqn:E; [done|].
  apply Z.ltb_ge in E. intros [= <-]. exists idx, e0. done.
Qed.

(** The new record is the one [find_file_entry] returns afterwards. *)
Lemma find_after_create fs name idx e0 entry fs' :
  first_byte name ≠ zero →
  find_free_file_entry (delete_existing fs name) = Some (idx, e0) →
  filename entry = copy_str name →
  file_table fs' = <[idx := entry]> (file_table (delete_existing fs name)) →
  find_file_entry fs' name = Some (idx, entry).
Proof.
  intros Hname Hfree Hentry Htable.
  pose proof (no_match_before_free _ _ _ _ Hfree) as Hbefore.
  unfold find_free_file_entry in Hfree.
  apply list_find_Some in Hfree as (Hidx & _ & _).
  apply records_lookup in Hidx as Hidx'. destruct Hidx' as [_ Hidx64].
  unfold find_file_entry, records. rewrite Htable, records_insert by done.
  apply list_find_Some. split; [|split].
  - apply list_lookup_insert_eq. by eapply lookup_lt_Some.
  - split.
    + unfold in_use. by rewrite Hentry, first_byte_copy_str.
    + rewrite Hentry. apply strcmp_copy_str.
  - intros j y Hj Hlt. rewrite list_lookup_insert_ne in Hj by lia.
    by apply (Hbefore j y).
Qed.

(** Round trip, for a name that is not empty.  If [create] succeeds and
    the blocks it took are the run [start .. start + ceil(len / block_size) - 1],
    a [read] of that name into a buffer of at least [len] bytes succeeds
    and the first [len] bytes of the buffer are the payload.  The store's
    [total_blocks] is one a format can produce (the data region is
    addressable with 32 bits). *)
Theorem create_read_roundtrip fs name payload start buffer capacity fs' :
  first_byte name ≠ zero →
  fits name →
  payload ≠ [] →
  addressable fs →
  create fs name payload = (true, fs') →
  scan_free_blocks (delete_existing fs name)
                   (calculate_blocks_needed (Z.of_nat (length payload)))
    = seqZ start (blocks_for (Z.of_nat (length payload))) →
  Z.of_nat (length payload) ≤ capacity →
  Z.of_nat (length payload) ≤ Z.of_nat (length buffer) →
  ∃ buffer',
    read fs' name buffer capacity = (true, fs', Some buffer') ∧
    take (length payload) buffer' = payload.
Proof.
  intros Hname _ Hpayload Htotal Hcreate Hrun Hcap Hbuf.
  unfold addressable in Htotal. unfold create, create_file in Hcreate.
  assert (Hlenj : ∀ j : nat, (j < length payload)%nat ↔ Z.of_nat j < Z.of_nat (length payload))
    by (intros; lia).
  set (len := Z.of_nat (length payload)) in *.
  assert (Hlen : 0 < len).
  { unfold len. destruct payload; [done | simpl; lia]. }
  destruct (len =? 0) eqn:E0; [apply Z.eqb_eq in E0; lia|].
  apply create_new_true in Hcreate as (idx & e0 & Hfree & Hfound & Htable & Hdata).
  rewrite Hrun in Hfound. rewrite Hrun in Htable. rewrite Hrun in Hdata.
  (* the run lies inside the table *)
  assert (Hcnt : 0 < blocks_for len).
  { unfold blocks_for, RAMDISK_BLOCK_SIZE. apply Z.div_str_pos. lia. }
  assert (Hbounds : 0 ≤ start ∧ start + blocks_for len ≤ total_blocks (superblock fs)).
  { assert (∀ x, x ∈ seqZ start (blocks_for len) →
                 0 ≤ x < 0 + Z.of_nat (Z.to_nat (total_blocks (superblock fs)))) as Hin.
    { intros x Hx. rewrite <- Hrun in Hx. unfold scan_free_blocks in Hx.
      apply scan_loop_range in Hx as [Hx | Hx]; [by apply elem_of_nil in Hx|].
      by rewrite delete_existing_total_blocks in Hx. }
    pose proof (Hin start) as H1. pose proof (Hin (start + blocks_for len - 1)) as H2.
    rewrite elem_of_seqZ in H1, H2. lia. }
  (* the code computed the same number of blocks *)
  assert (Hneeded : calculate_blocks_needed len = blocks_for len).
  { pose proof (scan_loop_length
      (Z.to_nat (total_blocks (superblock (delete_existing fs name)))) 0
      (fat (delete_existing fs name)) (calculate_blocks_needed len) []) as Hle.
    fold (scan_free_blocks (delete_existing fs name) (calculate_blocks_needed len)) in Hle.
    rewrite Hrun in Hle. rewrite length_seqZ in Hle, Hfound.
    assert (0 ≤ calculate_blocks_needed len).
    { unfold calculate_blocks_needed, u32, RAMDISK_BLOCK_SIZE.
      apply Z.div_pos; [apply Z.mod_pos_bound|]; lia. }
    simpl in Hle. lia. }
  assert (Hnowrap : len + RAMDISK_BLOCK_SIZE - 1 < 2 ^ 32).
  { unfold calculate_blocks_needed, blocks_for, u32, RAMDISK_BLOCK_SIZE in *.
    Z.div_mod_to_equations. lia. }
  assert (Hsize : len ≤ blocks_for len * RAMDISK_BLOCK_SIZE).
  { unfold blocks_for, RAMDISK_BLOCK_SIZE in *. Z.div_mod_to_equations. lia. }
  rewrite Hneeded in Hdata.
  rewrite lookup_total_seqZ_lt, Z.add_0_r in Htable by lia.
  (* the read finds the new record *)
  pose proof (find_after_create fs name idx e0
                (mkFileEntry (copy_str name) start len 0 0) fs'
                Hname Hfree eq_refl Htable) as Hfind.
  unfold read, read_file. rewrite Hfind. cbn [size start_block].
  destruct (capacity <? len) eqn:Ecap; [apply Z.ltb_lt in Ecap; lia|].
  eexists. split; [reflexivity|].
  apply list_eq. intros j.
  destruct (decide (j < length payload)%nat) as [Hj | Hj].
  - rewrite lookup_take_lt by done.
    rewrite read_loop_lookup by lia.
    apply Hlenj in Hj as Hj'.
    rewrite decide_True by lia.
    rewrite (list_lookup_lookup_total_lt payload j) by done. f_equal.
    assert (Hsrc : u32 (start * RAMDISK_BLOCK_SIZE) = start * RAMDISK_BLOCK_SIZE).
    { unfold u32. rewrite Z.mod_small; unfold RAMDISK_BLOCK_SIZE in *; lia. }
    rewrite Hsrc, Hdata.
    rewrite <- (Nat2Z.id j) at 2.
    apply copy_blocks_loop_contiguous with (cnt := blocks_for len);
      unfold RAMDISK_BLOCK_SIZE in *; lia.
  - rewrite lookup_take_ge by lia. symmetry. apply lookup_ge_None. lia.
Qed.

(** Every store a format leaves is addressable, and no operation changes
    [total_blocks]. *)
Lemma format_addressable fs : addressable (snd (format fs)).
Proof.
  unfold addressable, format. cbn [snd superblock total_blocks].
  unfold u32, RAMDISK_BLOCK_SIZE. Z.div_mod_to_equations. lia.
Qed.

Lemma create_new_total_blocks fs name payload size :
  total_blocks (superblock (snd (create_new fs name payload size)))
  = total_blocks (superblock fs).
Proof.
  unfold create_new.
  destruct (find_free_file_entry fs) as [[idx e0]|]; [|done].
  destruct (_ <? _); [done|]. by destruct (_ <? _).
Qed.

Lemma step_total_blocks fs o :
  total_blocks (superblock (step fs o)) = total_blocks (superblock fs).
Proof.
  destruct o as [name payload | name]; simpl.
  - unfold create, create_file. destruct (_ =? 0); [done|].
    by rewrite create_new_total_blocks, delete_existing_total_blocks.
  - apply delete_file_superblock.
Qed.

Lemma run_addressable fs ops : addressable fs → addressable (run fs ops).
Proof.
  unfold run. revert fs. induction ops as [|o ops IH]; intros fs Hfs; [done|].
  simpl. apply IH. unfold addressable in *. by rewrite step_total_blocks.
Qed.

End RoundTrip.

Lemma create_read_roundtrip_witness :
  ∃ buffer',
    read (snd (create fresh "hello" [x68; x69; x21])) "hello" [x00; x00; x00; x00] 4
    = (true, snd (create fresh "hello" [x68; x69; x21]), Some buffer') ∧
    take 3 buffer' = [x68; x69; x21].
Proof.
  apply (create_read_roundtrip fresh "hello" [x68; x69; x21] 0 [x00; x00; x00; x00] 4).
  - by vm_compute.
  - by vm_compute.
  - done.
  - by vm_compute.
  - by vm_compute.
  - by vm_compute.
  - by vm_compute.
  - by vm_compute.
Defined.

(** C1.  With the empty name the round trip breaks.  On the freshly
    formatted store [create] with the empty name and a one-byte payload
    returns [true], the block it took is the run [0 .. 0], and the [read] of
    that name into a one-byte buffer returns [false] and leaves the buffer
    as it was: the record's name field starts with the terminator, so no
    lookup finds it. *)
Theorem create_empty_name_unreadable :
  let fs' := snd (create fresh "" [x41]) in
  fst (create fresh "" [x41]) = true ∧
  scan_free_blocks (delete_existing fresh "") (calculate_blocks_needed 1)
    = seqZ 0 (blocks_for 1) ∧
  read fs' "" [x00] 1 = (false, fs', Some [x00]) ∧
  find_file_entry fs' "" = None.
Proof.
  cbv zeta. split; [by vm_compute|]. split; [by vm_compute|].
  assert (find_file_entry (snd (create fresh "" [x41])) "" = None) as Hfind
    by (by vm_compute).
  split; [|done]. unfold read, read_file. by rewrite Hfind.
Qed.

(** * Reading and deleting *)

(** C9.  [read_file] leaves the store as it was, whether it succeeds or
    fails: the superblock, the allocation table, the file table and the data
    region after the call are those before it, for every store, every name
    and every buffer and capacity (null pointers included). *)
Theorem read_file_unchanged fs filename buffer buffer_size :
  (read_file fs filename buffer buffer_size).1.2 = fs.
Proof.
  unfold read_file.
  destruct filename as [name|], buffer as [buf|]; try done.
  destruct (find_file_entry fs name) as [[idx entry]|]; [|done].
  by destruct (buffer_size <? size entry).
Qed.

(** C10.  When no live record is called [name], [delete_file] returns
    [false] and the store after the call is the store before it. *)
Theorem delete_file_absent fs name :
  no_live_record fs name → delete_file fs name = (false, fs).
Proof.
  intros H. apply find_file_entry_None in H.
  unfold delete_file. by rewrite H.
Qed.

Lemma fresh_no_record name : no_live_record fresh name.
Proof. apply find_file_entry_None. vm_compute. reflexivity. Defined.

Lemma delete_file_absent_witness :
  no_live_record fresh "nope" ∧ delete_file fresh "nope" = (false, fresh).
Proof.
  split; [apply fresh_no_record|].
  apply (delete_file_absent fresh "nope"), fresh_no_record.
Defined.

(** * Stat *)

(** C8, as the code has it.  When no live record is called [name],
    [get_file_info] writes nothing: the caller's size and timestamp
    variables keep what they held before the call, and nothing signals that
    the name was not found. *)
Theorem get_file_info_absent fs name size_out timestamp_out :
  no_live_record fs name →
  get_file_info fs name size_out timestamp_out = (size_out, timestamp_out).
Proof.
  intros H. apply find_file_entry_None in H.
  unfold get_file_info. by rewrite H.
Qed.

Lemma get_file_info_absent_witness :
  no_live_record fresh "nope" ∧
  get_file_info fresh "nope" (Some 7) (Some 9) = (Some 7, Some 9).
Proof.
  split; [apply fresh_no_record|].
  apply (get_file_info_absent fresh "nope"), fresh_no_record.
Defined.

(** C8, as the specification states it, fails: on the freshly formatted
    store no record is called ["nope"], yet the outputs are not zero
    afterwards. *)
Lemma get_file_info_not_zero_filled :
  no_live_record fresh "nope" ∧
  get_file_info fresh "nope" (Some 7) (Some 9) ≠ (Some 0, Some 0).
Proof. split; [apply fresh_no_record | by vm_compute]. Qed.

(** * Creating: the refusals *)

(** C6.  When the file table holds 64 live records and none is called
    [name], [create] returns [false] and the store after the call is the
    store before it: no allocation table entry is marked and [free_blocks]
    keeps its value. *)
Theorem create_directory_full fs name payload :
  live_records fs = RAMDISK_MAX_FILES →
  no_live_record fs name →
  create fs name payload = (false, fs) ∧
  fat (snd (create fs name payload)) = fat fs ∧
  free_blocks (superblock (snd (create fs name payload))) = free_blocks (superblock fs).
Proof.
  intros Hfull Habsent.
  assert (create fs name payload = (false, fs)) as ->; [|done].
  unfold create, create_file.
  destruct (Z.of_nat (length payload) =? 0); [done|].
  rewrite delete_existing_absent by done.
  by apply create_new_full, live_records_full.
Qed.

Lemma create_directory_full_witness :
  live_records full_directory = RAMDISK_MAX_FILES ∧
  create full_directory "sixty-fifth" [x41] = (false, full_directory).
Proof.
  split; [by vm_compute|].
  apply (create_directory_full full_directory "sixty-fifth" [x41]).
  - by vm_compute.
  - apply find_file_entry_None. by vm_compute.
Defined.

(** * The file count *)

Section FileCount.

Lemma filter_insert_length {A} (P : A → Prop) `{!∀ x, Decision (P x)} (l : list A) :
  ∀ i x y, l !! i = Some x →
    Z.of_nat (length (filter P (<[i := y]> l)))
    = Z.of_nat (length (filter P l))
      - (if decide (P x) then 1 else 0) + (if decide (P y) then 1 else 0).
Proof.
  induction l as [|a l IH]; intros i x y Hi; [done|].
  destruct i as [|i]; simpl in Hi.
  - injection Hi as ->. simpl. rewrite !filter_cons.
    repeat case_decide; simpl; lia.
  - simpl. rewrite !filter_cons. specialize (IH i x y Hi).
    destruct (decide (P a)); simpl; lia.
Qed.

Lemma live_records_bound fs : 0 ≤ live_records fs ≤ RAMDISK_MAX_FILES.
Proof.
  unfold live_records.
  pose proof (length_filter in_use (records fs)).
  assert (length (records fs) ≤ Z.to_nat RAMDISK_MAX_FILES)%nat.
  { unfold records. rewrite length_take. lia. }
  unfold RAMDISK_MAX_FILES in *. lia.
Qed.

Lemma live_records_insert fs fs' idx old new :
  records fs !! idx = Some old →
  file_table fs' = <[idx := new]> (file_table fs) →
  live_records fs' = live_records fs
                     - (if decide (in_use old) then 1 else 0)
                     + (if decide (in_use new) then 1 else 0).
Proof.
  intros Hold Htable. apply records_lookup in Hold as Hold'.
  destruct Hold' as [_ Hidx].
  unfold live_records. unfold records at 1. rewrite Htable, records_insert by done.
  by apply filter_insert_length.
Qed.

Lemma delete_file_count fs name :
  count_accurate fs → count_accurate (snd (delete_file fs name)).
Proof.
  unfold count_accurate, delete_file. intros Hinv.
  destruct (find_file_entry fs name) as [[idx entry]|] eqn:Efind; [|done].
  apply find_file_entry_Some in Efind as (Hidx & Huse & _).
  cbn [snd superblock file_count set_counts].
  match goal with |- _ = live_records ?fs' =>
    pose proof (live_records_bound fs') as Hafter;
    pose proof (live_records_insert fs fs' idx entry empty_entry Hidx eq_refl) as Hlive
  end.
  rewrite decide_True in Hlive by done.
  rewrite decide_False in Hlive by (unfold in_use; simpl; tauto).
  rewrite Hlive in *. pose proof (live_records_bound fs).
  unfold u32. rewrite Z.mod_small; unfold RAMDISK_MAX_FILES in *; lia.
Qed.

Lemma delete_existing_count fs name :
  count_accurate fs → count_accurate (delete_existing fs name).
Proof.
  unfold delete_existing. intros Hinv.
  destruct (find_file_entry fs name); [by apply delete_file_count | done].
Qed.

Lemma create_new_count fs name payload size :
  first_byte name ≠ zero →
  count_accurate fs → count_accurate (snd (create_new fs name payload size)).
Proof.
  intros Hname Hinv.
  destruct (create_new fs name payload size) as [[] fs'] eqn:Ecreate.
  2:{ unfold create_new in Ecreate.
      destruct (find_free_file_entry fs) as [[idx e0]|]; [|by injection Ecreate as <-].
      destruct (_ <? _); [by injection Ecreate as <-|].
      destruct (_ <? _); [by injection Ecreate as <-| done]. }
  pose proof Ecreate as Hsb.
  apply create_new_true in Ecreate as (idx & e0 & Hfree & _ & Htable & _).
  apply list_find_Some in Hfree as (Hidx & Hunused & _).
  cbn [snd]. unfold count_accurate in *.
  pose proof (live_records_bound fs') as Hafter.
  pose proof (live_records_insert fs fs' idx e0 _ Hidx Htable) as Hlive.
  rewrite decide_False in Hlive by done.
  rewrite decide_True in Hlive
    by (unfold in_use; simpl; by rewrite first_byte_copy_str).
  rewrite Hlive in *. pose proof (live_records_bound fs).
  unfold create_new in Hsb.
  destruct (find_free_file_entry fs) as [[idx' e0']|]; [|done].
  destruct (_ <? _); [done|]. destruct (_ <? _); [done|].
  injection Hsb as <-. cbn [superblock file_count set_counts].
  unfold u32. rewrite Z.mod_small; unfold RAMDISK_MAX_FILES in *; lia.
Qed.

Lemma step_count fs o :
  plain_operation o → count_accurate fs → count_accurate (step fs o).
Proof.
  destruct o as [name payload | name]; simpl.
  - intros [Hname _] Hinv. unfold create, create_file.
    destruct (_ =? 0); [done|].
    by apply create_new_count, delete_existing_count.
  - intros _. apply delete_file_count.
Qed.

Lemma format_count fs : count_accurate (snd (format fs)).
Proof. reflexivity. Qed.

(** With names that are not empty, the count is kept by every create and
    every delete. *)
Lemma file_count_preserved fs ops :
  count_accurate fs → Forall plain_operation ops → count_accurate (run fs ops).
Proof.
  intros Hinv Hops. unfold run. revert fs Hinv.
  induction Hops as [|o ops Ho _ IH]; intros fs Hinv; [done|].
  simpl. apply IH. by apply step_count.
Qed.

(** In every store reached from [initialize] by creates of non-empty names
    and deletes, [file_count] is the number of records whose name is not
    empty.  (This is a statement about the code where the components
    describe the region: see [laid_out].) *)
Theorem file_count_accurate mem memory_address size ops :
  Forall plain_operation ops →
  count_accurate (run (snd (initialize mem memory_address size)) ops).
Proof. intros Hops. apply file_count_preserved; [apply format_count | done]. Qed.

Lemma file_count_accurate_witness :
  count_accurate (run fresh [Create "a" [x41]; Create "b" [x42]; Delete "a"]).
Proof.
  apply (file_count_accurate zero_memory 2097152 RAMDISK_DEFAULT_SIZE
           [Create "a" [x41]; Create "b" [x42]; Delete "a"]).
  repeat constructor; by vm_compute.
Defined.

End FileCount.

(** * Creating with an empty name *)

(** C7.  The guard of [create_file] tests the name against the null pointer
    only.  On the freshly formatted store, [create] with the empty name and
    a one-byte payload returns [true], takes a block and counts a file,
    where the claim has it fail and change nothing.  (An empty payload is
    refused: [create_empty_payload].) *)
Theorem create_empty_name_accepted :
  fst (create fresh "" [x41]) = true ∧
  snd (create fresh "" [x41]) ≠ fresh ∧
  file_count (superblock (snd (create fresh "" [x41]))) = 1 ∧
  free_blocks (superblock (snd (create fresh "" [x41]))) = 796 ∧
  free_blocks (superblock fresh) = 797.
Proof.
  split; [by vm_compute|]. split; [|by vm_compute].
  intros H. apply (f_equal (λ fs, file_count (superblock fs))) in H.
  by vm_compute in H.
Qed.

(** C4.  After [create] with the empty name on the freshly formatted store,
    [file_count] is 1 and no record of the file table has a non-empty name:
    the state is reachable and [file_count] differs from the number of live
    records. *)
Theorem file_count_drift :
  let fs := run fresh [Create "" [x41]] in
  file_count (superblock fs) = 1 ∧ live_records fs = 0.
Proof. by vm_compute. Qed.

(** * Free-block accounting *)

(** C2.  Two one-block files take blocks 0 and 1; deleting the first and
    creating a two-block file gives it blocks 0 and 2; deleting that file
    frees blocks 0 and 1, and deleting the second file frees block 1 again.
    [free_blocks] is then 797 while the allocation table still marks block 2:
    796 zero entries. *)
Theorem free_blocks_drift :
  let fs := run fresh [Create "a" [x41]; Create "b" [x42]; Delete "a";
                       Create "d" (replicate (Z.to_nat 1025) x43);
                       Delete "d"; Delete "b"] in
  free_blocks (superblock fs) = 797 ∧ zero_entries fs = 796 ∧
  live_records fs = 0 ∧ fat fs !! 2%nat = Some x01.
Proof. by vm_compute. Qed.

(** * Layout *)

(** C3.  For the default region, whatever the memory held, the file table
    of 64 records ends at offset 5380, which would leave 1018 blocks
    (1024 minus the 6 blocks of overhead); [initialize] places the data
    region at offset 231940, 226560 bytes further, and [total_blocks] is
    797. *)
Theorem default_layout mem :
  let fs := snd (fs_initialize mem) in
  let directory_end :=
    (file_table_ptr fs - disk_memory fs) + RAMDISK_MAX_FILES * sizeof_RAMDiskFileEntry in
  fat_ptr fs - disk_memory fs = sizeof_RAMDiskSuperblock ∧
  file_table_ptr fs - fat_ptr fs = RAMDISK_DEFAULT_SIZE / RAMDISK_BLOCK_SIZE ∧
  directory_end = 5380 ∧
  1024 - blocks_for directory_end = 1018 ∧
  (RAMDISK_DEFAULT_SIZE - directory_end) / RAMDISK_BLOCK_SIZE = 1018 ∧
  data_blocks_ptr fs - disk_memory fs = 231940 ∧
  data_blocks_ptr fs - disk_memory fs - directory_end = 226560 ∧
  total_blocks (superblock fs) = 797.
Proof. by vm_compute. Qed.

(** * Format and layout *)

Section FormatFacts.

Lemma filter_replicate_all {A} (P : A → Prop) `{!∀ x, Decision (P x)} (x : A) n :
  P x → filter P (replicate n x) = replicate n x.
Proof.
  intros Hx. induction n as [|n IH]; [done|].
  simpl. rewrite filter_cons, decide_True by done. by rewrite IH.
Qed.

Lemma filter_replicate_none {A} (P : A → Prop) `{!∀ x, Decision (P x)} (x : A) n :
  ¬ P x → filter P (replicate n x) = [].
Proof.
  intros Hx. induction n as [|n IH]; [done|].
  simpl. by rewrite filter_cons, decide_False.
Qed.

Lemma format_total_blocks_range fs :
  0 ≤ total_blocks (superblock (snd (format fs))) < 2 ^ 32 / RAMDISK_BLOCK_SIZE.
Proof.
  unfold format. cbn [snd superblock total_blocks].
  unfold u32, RAMDISK_BLOCK_SIZE. Z.div_mod_to_equations. lia.
Qed.

(** X2.  When the region holds the layout ([layout_overhead size <= size])
    and ends below the top of the address space, [initialize] puts the data
    region [layout_overhead size] bytes into the region, and the
    [total_blocks] blocks of the data region end inside the region, less
    than one block before its end. *)
Theorem initialize_data_region_inside mem memory_address size :
  0 ≤ memory_address →
  memory_address + size < 2 ^ 32 →
  layout_overhead size ≤ size →
  let fs := snd (initialize mem memory_address size) in
  data_blocks_ptr fs - disk_memory fs = layout_overhead size ∧
  layout_overhead size + total_blocks (superblock fs) * RAMDISK_BLOCK_SIZE ≤ size ∧
  size < layout_overhead size + (total_blocks (superblock fs) + 1) * RAMDISK_BLOCK_SIZE.
Proof.
  intros Haddr Htop Hfits. cbv zeta.
  unfold initialize, format, layout_overhead in *.
  cbn [snd data_blocks_ptr disk_memory superblock total_blocks total_size].
  change sizeof_RAMDiskSuperblock with 516 in *.
  change sizeof_RAMDiskFileEntry with 60 in *.
  change RAMDISK_MAX_FILES with 64 in *.
  change RAMDISK_BLOCK_SIZE with 1024 in *.
  assert (0 ≤ size / 1024) by (Z.div_mod_to_equations; lia).
  unfold u32.
  rewrite (Z.mod_small (64 * 60)) by lia.
  rewrite (Z.mod_small (memory_address + 516)) by lia.
  rewrite (Z.mod_small (memory_address + 516 + size / 1024)) by lia.
  rewrite (Z.mod_small (memory_address + 516 + size / 1024 + 64 * 60 * 60)) by lia.
  replace (memory_address + 516 + size / 1024 + 64 * 60 * 60 - memory_address)
    with (516 + size / 1024 + 64 * 60 * 60) by lia.
  rewrite (Z.mod_small (516 + size / 1024 + 64 * 60 * 60)) by lia.
  rewrite (Z.mod_small (size - _)) by lia.
  split; [lia|]. Z.div_mod_to_equations. lia.
Qed.

Lemma initialize_data_region_inside_witness :
  data_blocks_ptr fresh - disk_memory fresh = layout_overhead RAMDISK_DEFAULT_SIZE ∧
  layout_overhead RAMDISK_DEFAULT_SIZE + total_blocks (superblock fresh) * RAMDISK_BLOCK_SIZE
    ≤ RAMDISK_DEFAULT_SIZE ∧
  RAMDISK_DEFAULT_SIZE
    < layout_overhead RAMDISK_DEFAULT_SIZE
      + (total_blocks (superblock fresh) + 1) * RAMDISK_BLOCK_SIZE.
Proof.
  apply (initialize_data_region_inside zero_memory 2097152 RAMDISK_DEFAULT_SIZE);
    by vm_compute.
Defined.

(** X3.  When the region is too small for the layout
    ([size < layout_overhead size]), the subtraction in [format] wraps
    around: [total_blocks] is [(2^32 + size - layout_overhead size) / 1024],
    more than four million blocks, and the data region it describes is
    larger than the whole region. *)
Theorem initialize_undersized_wraps mem memory_address size :
  0 ≤ memory_address →
  memory_address + layout_overhead size < 2 ^ 32 →
  0 ≤ size < layout_overhead size →
  let fs := snd (initialize mem memory_address size) in
  total_blocks (superblock fs)
    = (2 ^ 32 + size - layout_overhead size) / RAMDISK_BLOCK_SIZE ∧
  4000000 < total_blocks (superblock fs) ∧
  size < total_blocks (superblock fs) * RAMDISK_BLOCK_SIZE.
Proof.
  intros Haddr Htop Hsmall. cbv zeta.
  unfold initialize, format, layout_overhead in *.
  cbn [snd data_blocks_ptr disk_memory superblock total_blocks total_size].
  change sizeof_RAMDiskSuperblock with 516 in *.
  change sizeof_RAMDiskFileEntry with 60 in *.
  change RAMDISK_MAX_FILES with 64 in *.
  change RAMDISK_BLOCK_SIZE with 1024 in *.
  assert (0 ≤ size / 1024 ≤ size) by (Z.div_mod_to_equations; lia).
  unfold u32.
  rewrite (Z.mod_small (64 * 60)) by lia.
  rewrite (Z.mod_small (memory_address + 516)) by lia.
  rewrite (Z.mod_small (memory_address + 516 + size / 1024)) by lia.
  rewrite (Z.mod_small (memory_address + 516 + size / 1024 + 64 * 60 * 60)) by lia.
  replace (memory_address + 516 + size / 1024 + 64 * 60 * 60 - memory_address)
    with (516 + size / 1024 + 64 * 60 * 60) by lia.
  rewrite (Z.mod_small (516 + size / 1024 + 64 * 60 * 60)) by lia.
  assert ((size - (516 + size / 1024 + 64 * 60 * 60)) mod 2 ^ 32
          = 2 ^ 32 + size - (516 + size / 1024 + 64 * 60 * 60)) as ->.
  { symmetry. apply (Z.mod_unique _ _ (-1)); lia. }
  split; [done|]. Z.div_mod_to_equations. lia.
Qed.

Lemma initialize_undersized_wraps_witness :
  total_blocks (superblock (snd (initialize zero_memory 2097152 100000))) = 4194176.
Proof.
  pose proof (initialize_undersized_wraps zero_memory 2097152 100000) as H.
  cbv zeta in H. destruct H as [H _]; [by vm_compute | by vm_compute | by vm_compute |].
  rewrite H. by vm_compute.
Defined.

End FormatFacts.

(** * Allocation *)

Section Allocation.

Lemma scan_loop_first_fit n : ∀ i fat blocks_needed allocated,
  scan_loop n i fat blocks_needed allocated
  = allocated
    ++ take (Z.to_nat (blocks_needed - Z.of_nat (length allocated)))
            (filter (λ j, fat !! Z.to_nat j = Some x00) (seqZ i (Z.of_nat n))).
Proof.
  induction n as [|n IH]; intros i fat needed allocated; cbn [scan_loop].
  - change (seqZ i (Z.of_nat 0)) with (@nil Z).
    by rewrite filter_nil, take_nil, app_nil_r.
  - rewrite Nat2Z.inj_succ, seqZ_cons, Z.pred_succ, filter_cons by lia.
    replace (Z.succ i) with (i + 1) by lia.
    destruct (Z.of_nat (length allocated) <? needed) eqn:E.
    + apply Z.ltb_lt in E. rewrite IH.
      case_bool_decide as Hfree.
      * rewrite decide_True by done. rewrite length_app. simpl.
        replace (Z.to_nat (needed - Z.of_nat (length allocated)))
          with (S (Z.to_nat (needed - Z.of_nat (length allocated + 1)))) by lia.
        simpl. by rewrite <- app_assoc.
      * by rewrite decide_False.
    + apply Z.ltb_ge in E.
      replace (Z.to_nat (needed - Z.of_nat (length allocated))) with 0%nat by lia.
      by rewrite take_0, app_nil_r.
Qed.

Lemma scan_free_blocks_first_fit_aux fs blocks_needed :
  scan_free_blocks fs blocks_needed = take (Z.to_nat blocks_needed) (free_indices fs).
Proof.
  unfold scan_free_blocks, free_indices. rewrite scan_loop_first_fit.
  simpl. by rewrite Z.sub_0_r.
Qed.

(** X4.  First fit: the blocks [create_file] collects are the first
    [blocks_needed] zero entries of the allocation table, in ascending
    order (all of them when there are fewer); each lies below
    [total_blocks]. *)
Theorem scan_free_blocks_first_fit fs blocks_needed :
  scan_free_blocks fs blocks_needed = take (Z.to_nat blocks_needed) (free_indices fs) ∧
  ∀ b, b ∈ scan_free_blocks fs blocks_needed →
       0 ≤ b < total_blocks (superblock fs) ∧ fat fs !! Z.to_nat b = Some x00.
Proof.
  split; [apply scan_free_blocks_first_fit_aux|].
  intros b Hb. rewrite scan_free_blocks_first_fit_aux in Hb.
  apply elem_of_take in Hb as (i & Hb & _). apply list_elem_of_lookup_2 in Hb.
  unfold free_indices in Hb. rewrite list_elem_of_filter, elem_of_seqZ in Hb.
  destruct Hb as [Hfree Hrange]. split; [lia | done].
Qed.

Lemma free_indices_lookup fs i :
  i ∈ free_indices fs → 0 ≤ i ∧ fat fs !! Z.to_nat i = Some x00.
Proof.
  unfold free_indices. rewrite list_elem_of_filter, elem_of_seqZ. tauto.
Qed.

Lemma free_indices_NoDup fs : NoDup (free_indices fs).
Proof. unfold free_indices. apply list.NoDup_filter, NoDup_seqZ. Qed.

(** Marking the first [n] of a list of blocks. *)
Lemma mark_loop_foldl n : ∀ i allocated fat,
  (i + n ≤ length allocated)%nat →
  mark_loop n i allocated fat
  = foldl (λ f b, <[Z.to_nat b := x01]> f) fat (take n (drop i allocated)).
Proof.
  induction n as [|n IH]; intros i allocated fat Hlen; cbn [mark_loop].
  - by rewrite take_0.
  - rewrite IH by lia.
    destruct (lookup_lt_is_Some_2 allocated i) as [b Hb]; [lia|].
    rewrite (list_lookup_total_correct _ _ _ Hb).
    rewrite (drop_S _ _ _ Hb). by simpl.
Qed.

Lemma mark_blocks_lookup blocks : ∀ (fat : list byte) (j : nat),
  (∀ b, b ∈ blocks → 0 ≤ b ∧ (Z.to_nat b < length fat)%nat) →
  foldl (λ f b, <[Z.to_nat b := x01]> f) fat blocks !! j
  = if decide (Z.of_nat j ∈ blocks) then Some x01 else fat !! j.
Proof.
  induction blocks as [|b blocks IH]; intros fat j Hin.
  - cbn [foldl]. by rewrite decide_False by apply not_elem_of_nil.
  - cbn [foldl]. rewrite IH.
    2:{ intros b' Hb'. rewrite length_insert. apply Hin. by right. }
    destruct (Hin b) as [Hb0 Hblt]; [by left|].
    destruct (decide (Z.of_nat j = b)) as [<- | Hne].
    + rewrite Nat2Z.id in *. rewrite list_lookup_insert_eq by done.
      case_decide as H1; case_decide as H2; try done;
        destruct H2; by left.
    + rewrite list_lookup_insert_ne by lia.
      case_decide as H1; case_decide as H2; try done.
      * destruct H2. by right.
      * apply elem_of_cons in H2 as [? | ?]; done.
Qed.

Lemma mark_blocks_zero_entries blocks : ∀ (fat : list byte),
  NoDup blocks →
  (∀ b, b ∈ blocks → 0 ≤ b ∧ fat !! Z.to_nat b = Some x00) →
  Z.of_nat (length (filter (λ x, x = x00)
                           (foldl (λ f b, <[Z.to_nat b := x01]> f) fat blocks)))
  = Z.of_nat (length (filter (λ x, x = x00) fat)) - Z.of_nat (length blocks).
Proof.
  induction blocks as [|b blocks IH]; intros fat Hnodup Hzero.
  - simpl. lia.
  - apply list.NoDup_cons in Hnodup as [Hnotin Hnodup].
    destruct (Hzero b) as [Hb0 Hb]; [by left|].
    simpl. rewrite IH; [|done|].
    + rewrite (filter_insert_length _ fat _ x00 x01 Hb).
      rewrite decide_True, decide_False by done. simpl length. lia.
    + intros b' Hb'. destruct (Hzero b') as [Hb'0 Hb'z]; [by right|].
      split; [done|]. rewrite list_lookup_insert_ne; [done|].
      intros Heq. apply Hnotin. by replace b with b' by lia.
Qed.

(** X5.  In a laid out store, with a name that fits the name field and a
    [u32] size, a successful [create_new] marks exactly [blocks_needed]
    entries of the allocation table: each one was zero before and is one
    after, every other entry keeps its value, and the number of zero
    entries goes down by [blocks_needed]. *)
Theorem create_new_marks_free_blocks fs name payload size fs' :
  laid_out fs →
  fits name →
  0 ≤ size < 2 ^ 32 →
  create_new fs name payload size = (true, fs') →
  Z.of_nat (length (scan_free_blocks fs (calculate_blocks_needed size)))
    = calculate_blocks_needed size ∧
  (∀ b, b ∈ scan_free_blocks fs (calculate_blocks_needed size) →
        fat fs !! Z.to_nat b = Some x00) ∧
  (∀ j : nat,
     fat fs' !! j
     = if decide (Z.of_nat j ∈ scan_free_blocks fs (calculate_blocks_needed size))
       then Some x01 else fat fs !! j) ∧
  zero_entries fs' = zero_entries fs - calculate_blocks_needed size.
Proof.
  intros _ _ _ Hcreate.
  assert (Hfat : fat fs' = mark_loop (Z.to_nat (calculate_blocks_needed size)) 0
                             (scan_free_blocks fs (calculate_blocks_needed size)) (fat fs)).
  { unfold create_new in Hcreate.
    destruct (find_free_file_entry fs) as [[idx e0]|]; [|done].
    destruct (_ <? _); [done|]. destruct (_ <? _); [done|].
    by injection Hcreate as <-. }
  apply create_new_true in Hcreate as (idx & e0 & _ & Hfound & _ & _).
  set (needed := calculate_blocks_needed size) in *.
  set (allocated := scan_free_blocks fs needed) in *.
  assert (Hlen : Z.of_nat (length allocated) = needed).
  { pose proof (scan_loop_length (Z.to_nat (total_blocks (superblock fs))) 0
                                 (fat fs) needed []) as Hle.
    fold (scan_free_blocks fs needed) in Hle. fold allocated in Hle.
    assert (0 ≤ needed).
    { unfold needed, calculate_blocks_needed, u32, RAMDISK_BLOCK_SIZE.
      apply Z.div_pos; [apply Z.mod_pos_bound|]; lia. }
    simpl in Hle. lia. }
  assert (Hsub : ∀ b, b ∈ allocated → b ∈ free_indices fs).
  { intros b Hb. unfold allocated in Hb.
    rewrite scan_free_blocks_first_fit_aux in Hb.
    apply elem_of_take in Hb as (i & Hb & _). by eapply list_elem_of_lookup_2. }
  assert (Hnodup : NoDup allocated).
  { unfold allocated. rewrite scan_free_blocks_first_fit_aux.
    eapply sublist_NoDup; [apply free_indices_NoDup | apply sublist_take]. }
  assert (Hzero : ∀ b, b ∈ allocated → 0 ≤ b ∧ fat fs !! Z.to_nat b = Some x00).
  { intros b Hb. by apply free_indices_lookup, Hsub. }
  rewrite mark_loop_foldl in Hfat by lia.
  rewrite drop_0, take_ge in Hfat by lia.
  split; [done|]. split; [intros b Hb; by apply Hzero|]. split.
  - intros j. rewrite Hfat. apply mark_blocks_lookup.
    intros b Hb. destruct (Hzero b Hb) as [? Hl]. split; [done|].
    by eapply lookup_lt_Some.
  - unfold zero_entries. rewrite Hfat, mark_blocks_zero_entries by done. lia.
Qed.

Lemma create_new_marks_free_blocks_witness :
  zero_entries (snd (create_new fresh "a" [x41] 1)) = zero_entries fresh - 1.
Proof.
  pose proof (create_new_marks_free_blocks fresh "a" [x41] 1
                (snd (create_new fresh "a" [x41] 1))) as H.
  destruct H as (_ & _ & _ & H);
    [by_evaluation | by vm_compute | by vm_compute | by vm_compute |].
  rewrite H. by vm_compute.
Defined.

End Allocation.

(** * Stores the embedding describes *)

Section Layout.

Lemma record_ok_empty total_blocks : record_ok total_blocks empty_entry.
Proof. split; [by vm_compute|]. intros H. exfalso. by apply H. Qed.

Lemma fits_copy_str name : fits name → fits (copy_str name).
Proof.
  unfold fits. intros H.
  assert (copy_str (copy_str name) = copy_str name) as ->; [|done].
  apply strcmp_zero_iff, strcmp_copy_str.
Qed.

Lemma free_blocks_loop_length n : ∀ i start fat,
  length (free_blocks_loop n i start fat) = length fat.
Proof.
  induction n as [|n IH]; intros; cbn [free_blocks_loop]; [done|].
  by rewrite IH, length_insert.
Qed.

Lemma mark_loop_length n : ∀ i allocated fat,
  length (mark_loop n i allocated fat) = length fat.
Proof.
  induction n as [|n IH]; intros; cbn [mark_loop]; [done|].
  by rewrite IH, length_insert.
Qed.

(** The first fit is taken from an ascending list: a run of [k] blocks
    found from [x] on ends below the end of the table. *)
Lemma first_fit_run (P : Z → Prop) `{!∀ j, Decision (P j)} n : ∀ i m x rest,
  take m (filter P (seqZ i (Z.of_nat n))) = x :: rest →
  i ≤ x ∧ x + Z.of_nat (S (length rest)) ≤ i + Z.of_nat n.
Proof.
  induction n as [|n IH]; intros i m x rest.
  - change (seqZ i (Z.of_nat 0)) with (@nil Z). by rewrite filter_nil, take_nil.
  - rewrite Nat2Z.inj_succ, seqZ_cons, Z.pred_succ, filter_cons by lia.
    destruct (decide (P i)).
    + destruct m as [|m]; [done|]. cbn [take]. intros [= <- <-].
      pose proof (length_filter P (seqZ (Z.succ i) (Z.of_nat n))) as Hle.
      rewrite length_seqZ in Hle. rewrite length_take. lia.
    + intros Htake. apply IH in Htake. lia.
Qed.

Lemma delete_file_laid_out fs name :
  laid_out fs → laid_out (snd (delete_file fs name)).
Proof.
  intros Hlaid. unfold delete_file.
  destruct (find_file_entry fs name) as [[idx entry]|]; [|done].
  destruct Hlaid as (Hareas & Hcount & Hfree & Hfat & Htable & Hrecords).
  cbn [snd]. unfold laid_out, areas_ok in *.
  cbn [disk_memory total_size fat_ptr file_table_ptr data_blocks_ptr superblock fat
       file_table total_blocks file_count free_blocks set_counts].
  split; [done|]. split; [apply u32_range|]. split; [apply u32_range|].
  split; [by rewrite free_blocks_loop_length|].
  split; [by rewrite length_insert|].
  apply Forall_insert; [done | apply record_ok_empty].
Qed.

Lemma delete_existing_laid_out fs name :
  laid_out fs → laid_out (delete_existing fs name).
Proof.
  intros H. unfold delete_existing.
  destruct (find_file_entry fs name); [by apply delete_file_laid_out | done].
Qed.

Lemma create_new_laid_out fs name payload len :
  laid_out fs → fits name →
  0 < len → len + RAMDISK_BLOCK_SIZE - 1 < 2 ^ 32 →
  laid_out (snd (create_new fs name payload len)).
Proof.
  intros Hlaid Hname Hpos Hsize.
  destruct (create_new_cases fs name payload len)
    as [-> | (idx & e0 & Hslot & Hfound & ->)]; [done|].
  destruct Hlaid as (Hareas & Hcount & Hfree & Hfat & Htable & Hrecords).
  cbn [snd]. unfold laid_out, areas_ok in *.
  cbn [disk_memory total_size fat_ptr file_table_ptr data_blocks_ptr superblock fat
       file_table total_blocks file_count free_blocks set_counts].
  split; [done|]. split; [apply u32_range|]. split; [apply u32_range|].
  split; [by rewrite mark_loop_length|].
  split; [by rewrite length_insert|].
  apply Forall_insert; [done|].
  split; [by apply fits_copy_str|]. intros _. cbn [start_block size].
  assert (Hneeded : 1 ≤ calculate_blocks_needed len).
  { rewrite calculate_blocks_needed_exact by lia.
    unfold blocks_for, RAMDISK_BLOCK_SIZE in *. Z.div_mod_to_equations. lia. }
  pose proof (scan_loop_length (Z.to_nat (total_blocks (superblock fs))) 0
                (fat fs) (calculate_blocks_needed len) []) as Hle.
  fold (scan_free_blocks fs (calculate_blocks_needed len)) in Hle.
  destruct (scan_free_blocks fs (calculate_blocks_needed len)) as [|x rest] eqn:Hscan;
    [simpl in Hfound; lia|].
  rewrite scan_free_blocks_first_fit_aux in Hscan. unfold free_indices in Hscan.
  apply first_fit_run in Hscan.
  change ((x :: rest) !!! 0%nat) with x.
  cbn [length] in *. specialize (Hle ltac:(simpl; lia)). lia.
Qed.

Lemma step_laid_out fs o :
  bounded_operation o → laid_out fs → laid_out (step fs o).
Proof.
  destruct o as [name payload | name]; simpl.
  - intros [Hname Hsized] Hlaid. unfold create, create_file.
    destruct (Z.of_nat (length payload) =? 0) eqn:E; [done|].
    apply Z.eqb_neq in E.
    apply create_new_laid_out; [by apply delete_existing_laid_out | done | lia | done].
  - intros _. apply delete_file_laid_out.
Qed.

Lemma run_laid_out fs ops :
  laid_out fs → Forall bounded_operation ops → laid_out (run fs ops).
Proof.
  intros Hlaid Hops. unfold run. revert fs Hlaid.
  induction Hops as [|o ops Ho _ IH]; intros fs Hlaid; [done|].
  simpl. apply IH. by apply step_laid_out.
Qed.

(** Where [initialize] puts the areas on a region that holds the layout. *)
Lemma initialize_pointers mem memory_address size :
  0 ≤ memory_address →
  memory_address + size < 2 ^ 32 →
  layout_overhead size ≤ size →
  fat_ptr (snd (initialize mem memory_address size))
  = memory_address + sizeof_RAMDiskSuperblock ∧
  file_table_ptr (snd (initialize mem memory_address size))
  = memory_address + sizeof_RAMDiskSuperblock + size / RAMDISK_BLOCK_SIZE ∧
  data_blocks_ptr (snd (initialize mem memory_address size))
  = memory_address + layout_overhead size ∧
  total_blocks (superblock (snd (initialize mem memory_address size)))
  = (size - layout_overhead size) / RAMDISK_BLOCK_SIZE.
Proof.
  intros Haddr Htop Hfits.
  unfold initialize, format, layout_overhead in *.
  cbn [snd disk_memory total_size fat_ptr file_table_ptr data_blocks_ptr superblock
       total_blocks].
  change sizeof_RAMDiskSuperblock with 516 in *.
  change sizeof_RAMDiskFileEntry with 60 in *.
  change RAMDISK_MAX_FILES with 64 in *.
  change RAMDISK_BLOCK_SIZE with 1024 in *.
  assert (0 ≤ size / 1024) by (Z.div_mod_to_equations; lia).
  unfold u32.
  rewrite (Z.mod_small (64 * 60)) by lia.
  rewrite (Z.mod_small (memory_address + 516)) by lia.
  rewrite (Z.mod_small (memory_address + 516 + size / 1024)) by lia.
  rewrite (Z.mod_small (memory_address + 516 + size / 1024 + 64 * 60 * 60)) by lia.
  replace (memory_address + 516 + size / 1024 + 64 * 60 * 60 - memory_address)
    with (516 + size / 1024 + 64 * 60 * 60) by lia.
  rewrite (Z.mod_small (516 + size / 1024 + 64 * 60 * 60)) by lia.
  rewrite (Z.mod_small (size - _)) by lia.
  split; [done|]. split; [done|]. split; [lia | done].
Qed.

Lemma initialize_laid_out mem memory_address size :
  0 ≤ memory_address →
  memory_address + size < 2 ^ 32 →
  layout_overhead size ≤ size →
  laid_out (snd (initialize mem memory_address size)).
Proof.
  intros Haddr Htop Hfits.
  destruct (initialize_pointers mem memory_address size Haddr Htop Hfits)
    as (Hfat & Htable & Hdata & Htotal).
  set (fs := snd (initialize mem memory_address size)) in *.
  assert (Hmem : disk_memory fs = memory_address) by reflexivity.
  assert (Hsize : total_size fs = size) by reflexivity.
  assert (Hcount : file_count (superblock fs) = 0) by reflexivity.
  assert (Hfree : free_blocks (superblock fs) = total_blocks (superblock fs))
    by reflexivity.
  assert (Hf : fat fs = replicate (Z.to_nat (total_blocks (superblock fs))) x00)
    by reflexivity.
  assert (Ht : file_table fs = replicate (Z.to_nat RAMDISK_MAX_FILES) empty_entry)
    by reflexivity.
  unfold laid_out, areas_ok.
  rewrite Hmem, Hsize, Hfat, Htable, Hdata, Hcount, Hfree, Hf, Ht, Htotal.
  rewrite !length_replicate.
  unfold layout_overhead in *.
  change sizeof_RAMDiskSuperblock with 516 in *.
  change sizeof_RAMDiskFileEntry with 60 in *.
  change RAMDISK_MAX_FILES with 64 in *.
  change RAMDISK_BLOCK_SIZE with 1024 in *.
  split; [|split; [lia|split; [|split; [done|split; [done|]]]]].
  - Z.div_mod_to_equations. lia.
  - Z.div_mod_to_equations. lia.
  - apply Forall_replicate, record_ok_empty.
Qed.

(** No operation moves the areas. *)
Lemma delete_file_region fs name : region (snd (delete_file fs name)) = region fs.
Proof. unfold delete_file. by destruct (find_file_entry fs name) as [[idx e]|]. Qed.

Lemma create_new_region fs name payload size :
  region (snd (create_new fs name payload size)) = region fs.
Proof.
  by destruct (create_new_cases fs name payload size) as [-> | (idx & e0 & _ & _ & ->)].
Qed.

Lemma step_region fs o : region (step fs o) = region fs.
Proof.
  destruct o as [name payload | name]; simpl; [|apply delete_file_region].
  unfold create, create_file. destruct (_ =? 0); [done|].
  rewrite create_new_region. unfold delete_existing.
  destruct (find_file_entry fs name); [apply delete_file_region | done].
Qed.

Lemma run_region fs ops : region (run fs ops) = region fs.
Proof.
  unfold run. revert fs. induction ops as [|o ops IH]; intros fs; [done|].
  simpl. by rewrite IH, step_region.
Qed.

(** [format] reads nothing of the store but the addresses and the size. *)
Lemma format_by_region fs fs' :
  region fs = region fs' →
  superblock (snd (format fs)) = superblock (snd (format fs')) ∧
  fat (snd (format fs)) = fat (snd (format fs')) ∧
  file_table (snd (format fs)) = file_table (snd (format fs')).
Proof.
  unfold region. intros [= Hmem Hsize _ _ Hdata]. unfold format.
  cbn [snd superblock fat file_table]. by rewrite Hmem, Hsize, Hdata.
Qed.

(** X1.  On a region that holds the layout, [format] brings any store
    reached from [initialize] by creates (names that fit the name field,
    payloads shorter than [2^32 - 1023] bytes) and deletes back to the
    store [initialize] left: it returns [true], the superblock, the
    allocation table and the file table are those [initialize] gave
    (whatever the two counters had drifted to), no name is found, every
    entry of the allocation table is zero, and the data region holds the
    bytes it held before the format. *)
Theorem format_leaves_empty_store mem memory_address size ops name :
  0 ≤ memory_address →
  memory_address + size < 2 ^ 32 →
  layout_overhead size ≤ size →
  Forall bounded_operation ops →
  let fs0 := snd (initialize mem memory_address size) in
  let fs := run fs0 ops in
  fst (format fs) = true ∧
  superblock (snd (format fs)) = superblock fs0 ∧
  fat (snd (format fs)) = fat fs0 ∧
  file_table (snd (format fs)) = file_table fs0 ∧
  data (snd (format fs)) = data fs ∧
  find_file_entry (snd (format fs)) name = None ∧
  zero_entries (snd (format fs)) = total_blocks (superblock fs0).
Proof.
  intros _ _ _ _. cbv zeta.
  set (fs0 := snd (initialize mem memory_address size)).
  set (fs := run fs0 ops).
  assert (Hregion : region fs = region fs0) by apply run_region.
  assert (Hagain : superblock (snd (format fs0)) = superblock fs0 ∧
                   fat (snd (format fs0)) = fat fs0 ∧
                   file_table (snd (format fs0)) = file_table fs0) by done.
  destruct (format_by_region fs fs0 Hregion) as (Hsb & Hfat & Htable).
  destruct Hagain as (Hsb0 & Hfat0 & Htable0).
  rewrite Hsb0 in Hsb. rewrite Hfat0 in Hfat. rewrite Htable0 in Htable.
  split; [done|]. split; [done|]. split; [done|]. split; [done|]. split; [done|].
  pose proof (format_total_blocks_range fs) as Hrange. rewrite Hsb in Hrange.
  split.
  - apply find_file_entry_None. unfold no_live_record, records.
    rewrite Htable. apply Forall_take, Forall_replicate.
    intros [Huse _]. by apply Huse.
  - unfold zero_entries. rewrite Hfat.
    change (fat fs0) with (replicate (Z.to_nat (total_blocks (superblock fs0))) x00).
    rewrite filter_replicate_all, length_replicate by done. lia.
Qed.

Lemma format_leaves_empty_store_witness :
  let fs := run fresh [Create "a" [x41]; Create "" [x42]; Delete "a"] in
  superblock (snd (format fs)) = superblock fresh ∧ fat (snd (format fs)) = fat fresh.
Proof.
  pose proof (format_leaves_empty_store zero_memory 2097152 RAMDISK_DEFAULT_SIZE
                [Create "a" [x41]; Create "" [x42]; Delete "a"] "a") as H.
  cbv zeta in H. destruct H as (_ & H1 & H2 & _).
  - by vm_compute.
  - by vm_compute.
  - by vm_compute.
  - repeat constructor; by vm_compute.
  - split; [exact H1 | exact H2].
Defined.

(** X30.  On a region that holds the layout and lies inside the address
    space, every store reached from [initialize] by creates (names that fit
    the name field, payloads shorter than [2^32 - 1023] bytes) and deletes
    is laid out: the allocation table has [total_blocks] entries and ends in
    front of the file table, the 64 records end in front of the data
    region, the [total_blocks] blocks of the data region end inside the
    region, and for every live record the run of blocks
    [start_block .. start_block + blocks_needed - 1] that [delete_file]
    frees lies below [total_blocks] and the bytes that [read_file] reads lie
    inside the data region. *)
Theorem store_stays_laid_out mem memory_address region_size ops :
  0 ≤ memory_address →
  memory_address + region_size < 2 ^ 32 →
  layout_overhead region_size ≤ region_size →
  Forall bounded_operation ops →
  let fs := run (snd (initialize mem memory_address region_size)) ops in
  laid_out fs ∧
  fat_ptr fs + Z.of_nat (length (fat fs)) ≤ file_table_ptr fs ∧
  file_table_ptr fs + RAMDISK_MAX_FILES * sizeof_RAMDiskFileEntry ≤ data_blocks_ptr fs ∧
  data_blocks_ptr fs + total_blocks (superblock fs) * RAMDISK_BLOCK_SIZE
    ≤ disk_memory fs + total_size fs ∧
  ∀ i e, file_table fs !! i = Some e → in_use e →
    0 ≤ start_block e ∧
    start_block e + calculate_blocks_needed (size e) ≤ total_blocks (superblock fs) ∧
    start_block e * RAMDISK_BLOCK_SIZE + size e
      ≤ total_blocks (superblock fs) * RAMDISK_BLOCK_SIZE.
Proof.
  intros Haddr Htop Hfits Hops. cbv zeta.
  pose proof (run_laid_out _ ops (initialize_laid_out mem _ _ Haddr Htop Hfits) Hops)
    as Hlaid.
  split; [done|].
  destruct Hlaid as (Hareas & _ & _ & Hfat & _ & Hrecords).
  unfold areas_ok in Hareas. rewrite Hfat.
  split; [lia|]. split; [lia|]. split; [lia|].
  intros i e Hi Huse.
  eapply Forall_lookup_1 in Hrecords as [_ Hrun]; [|exact Hi].
  destruct (Hrun Huse) as (Hstart & Hsize0 & Hsize & Hend).
  rewrite calculate_blocks_needed_exact in * by done.
  unfold blocks_for, RAMDISK_BLOCK_SIZE in *.
  split; [done|]. split; [done|]. Z.div_mod_to_equations. lia.
Qed.

Lemma store_stays_laid_out_witness :
  laid_out (run fresh [Create "a" [x41]; Create "b" (replicate (Z.to_nat 1025) x42);
                       Delete "a"; Create "c" (replicate (Z.to_nat 1025) x43)]).
Proof.
  apply (store_stays_laid_out zero_memory 2097152 RAMDISK_DEFAULT_SIZE
           [Create "a" [x41]; Create "b" (replicate (Z.to_nat 1025) x42);
            Delete "a"; Create "c" (replicate (Z.to_nat 1025) x43)]).
  - by vm_compute.
  - by vm_compute.
  - by vm_compute.
  - repeat constructor; by vm_compute.
Defined.

End Layout.

(** * After a create *)

Section AfterCreate.

Lemma create_new_superblock fs name payload size fs' :
  create_new fs name payload size = (true, fs') →
  superblock fs'
  = set_counts (superblock fs) (u32 (file_count (superblock fs) + 1))
               (u32 (free_blocks (superblock fs) - calculate_blocks_needed size)).
Proof.
  unfold create_new.
  destruct (find_free_file_entry fs) as [[idx e0]|]; [|done].
  destruct (_ <? _); [done|]. destruct (_ <? _); [done|].
  by intros [= <-].
Qed.

(** After a successful [create] with a name that is not empty, the lookup
    of that name gives a record with the copied name, the payload's length
    and a zero timestamp. *)
Lemma create_finds fs name payload fs' :
  first_byte name ≠ zero →
  create fs name payload = (true, fs') →
  ∃ idx start,
    find_file_entry fs' name
    = Some (idx, mkFileEntry (copy_str name) start (Z.of_nat (length payload)) 0 0).
Proof.
  intros Hname Hcreate. unfold create, create_file in Hcreate.
  destruct (_ =? 0); [done|].
  apply create_new_true in Hcreate as (idx & e0 & Hfree & _ & Htable & _).
  eexists idx, _. by eapply find_after_create.
Qed.

(** X6.  In a laid out store, after a successful [create] with a name
    that is not empty and fits the name field and a payload shorter than
    [2^32] bytes, the file exists, and [get_file_info] reports the payload's
    length as its size and 0 as its timestamp. *)
Theorem create_then_exists_and_stat fs name payload fs' size_out timestamp_out :
  laid_out fs →
  first_byte name ≠ zero →
  fits name →
  Z.of_nat (length payload) < 2 ^ 32 →
  create fs name payload = (true, fs') →
  file_exists fs' name = true ∧
  get_file_info fs' name (Some size_out) (Some timestamp_out)
  = (Some (Z.of_nat (length payload)), Some 0).
Proof.
  intros _ Hname _ _ Hcreate.
  destruct (create_finds _ _ _ _ Hname Hcreate) as (idx & start & Hfind).
  unfold file_exists, get_file_info. rewrite Hfind. split; [|done].
  by apply bool_decide_eq_true_2.
Qed.

Lemma create_then_exists_and_stat_witness :
  file_exists (snd (create fresh "hello" [x68; x69; x21])) "hello" = true ∧
  get_file_info (snd (create fresh "hello" [x68; x69; x21])) "hello" (Some 7) (Some 9)
  = (Some 3, Some 0).
Proof.
  apply (create_then_exists_and_stat fresh "hello" [x68; x69; x21] _ 7 9);
    [by_evaluation | by vm_compute ..].
Defined.

(** X7.  In a laid out store, after a successful [create] with a name
    that is not empty and fits the name field and a payload shorter than
    [2^32] bytes, a [read] of that name with a capacity below the payload's
    length returns [false] and leaves the buffer as it was. *)
Theorem create_then_read_too_small fs name payload fs' buffer capacity :
  laid_out fs →
  first_byte name ≠ zero →
  fits name →
  Z.of_nat (length payload) < 2 ^ 32 →
  create fs name payload = (true, fs') →
  capacity < Z.of_nat (length payload) →
  read fs' name buffer capacity = (false, fs', Some buffer).
Proof.
  intros _ Hname _ _ Hcreate Hcap.
  destruct (create_finds _ _ _ _ Hname Hcreate) as (idx & start & Hfind).
  unfold read, read_file. rewrite Hfind. cbn [size].
  apply Z.ltb_lt in Hcap. by rewrite Hcap.
Qed.

Lemma create_then_read_too_small_witness :
  read (snd (create fresh "hello" [x68; x69; x21])) "hello" [x00; x00] 2
  = (false, snd (create fresh "hello" [x68; x69; x21]), Some [x00; x00]).
Proof.
  apply (create_then_read_too_small fresh "hello" [x68; x69; x21]);
    [by_evaluation | by vm_compute ..].
Defined.

(** X8.  In a laid out store, creating a file under a name that is not
    empty, fits the name field and that no live record has, with a payload
    shorter than [2^32] bytes, and then deleting it, brings [file_count] and
    [free_blocks] back to what they were. *)
Theorem create_delete_restores_counters fs name payload fs' :
  laid_out fs →
  first_byte name ≠ zero →
  fits name →
  no_live_record fs name →
  Z.of_nat (length payload) < 2 ^ 32 →
  create fs name payload = (true, fs') →
  fst (delete_file fs' name) = true ∧
  file_count (superblock (snd (delete_file fs' name))) = file_count (superblock fs) ∧
  free_blocks (superblock (snd (delete_file fs' name))) = free_blocks (superblock fs).
Proof.
  intros (_ & Hcount & Hfree & _) Hname _ Habsent _ Hcreate.
  destruct (create_finds _ _ _ _ Hname Hcreate) as (idx & start & Hfind).
  unfold create, create_file in Hcreate.
  destruct (_ =? 0); [done|].
  rewrite delete_existing_absent in Hcreate by done.
  apply create_new_superblock in Hcreate.
  unfold delete_file. rewrite Hfind, Hcreate.
  cbn [fst snd superblock file_count free_blocks set_counts size].
  split; [done|].
  assert (0 ≤ calculate_blocks_needed (Z.of_nat (length payload))).
  { unfold calculate_blocks_needed, u32, RAMDISK_BLOCK_SIZE.
    apply Z.div_pos; [apply Z.mod_pos_bound|]; lia. }
  unfold u32. split.
  - rewrite Zminus_mod_idemp_l.
    replace (file_count (superblock fs) + 1 - 1) with (file_count (superblock fs)) by lia.
    by apply Z.mod_small.
  - rewrite Zplus_mod_idemp_l.
    replace (free_blocks (superblock fs) - _ + _) with (free_blocks (superblock fs)) by lia.
    by apply Z.mod_small.
Qed.

Lemma create_delete_restores_counters_witness :
  fst (delete_file (snd (create fresh "a.txt" (replicate 10 x61))) "a.txt") = true ∧
  file_count (superblock (snd (delete_file (snd (create fresh "a.txt" (replicate 10 x61))) "a.txt")))
  = file_count (superblock fresh) ∧
  free_blocks (superblock (snd (delete_file (snd (create fresh "a.txt" (replicate 10 x61))) "a.txt")))
  = free_blocks (superblock fresh).
Proof.
  apply (create_delete_restores_counters fresh "a.txt" (replicate 10 x61)).
  - by_evaluation.
  - by vm_compute.
  - by vm_compute.
  - apply fresh_no_record.
  - by vm_compute.
  - by vm_compute.
Defined.

End AfterCreate.

(** * Names *)

Section Names.

Lemma delete_existing_unique fs name :
  unique_names fs →
  unique_names (delete_existing fs name) ∧ no_live_record (delete_existing fs name) name.
Proof.
  intros Huniq. unfold delete_existing.
  destruct (find_file_entry fs name) eqn:Efind.
  - split; [by apply delete_file_unique | by apply delete_file_removes].
  - split; [done | by apply find_file_entry_None].
Qed.

Lemma create_new_unique fs name payload size :
  unique_names fs → no_live_record fs name →
  unique_names (snd (create_new fs name payload size)).
Proof.
  intros Huniq Habsent.
  destruct (create_new fs name payload size) as [[] fs'] eqn:Ecreate.
  2:{ unfold create_new in Ecreate.
      destruct (find_free_file_entry fs) as [[idx e0]|]; [|by injection Ecreate as <-].
      destruct (_ <? _); [by injection Ecreate as <-|].
      destruct (_ <? _); [by injection Ecreate as <-| done]. }
  apply create_new_true in Ecreate as (idx & e0 & Hfree & _ & Htable & _).
  apply list_find_Some in Hfree as (Hidx & _ & _).
  cbn [snd]. unfold unique_names.
  rewrite (records_after_insert fs fs' idx e0 _ Hidx Htable).
  assert (Hother : ∀ j e, records fs !! j = Some e → in_use e →
                          copy_str (filename e) ≠ copy_str (copy_str name)).
  { intros j e Hj Hu Heq. unfold no_live_record in Habsent.
    eapply Forall_lookup_1 in Habsent; [|exact Hj]. apply Habsent.
    split; [done|]. rewrite Heq.
    apply strcmp_zero_iff, strcmp_copy_str. }
  intros i j e1 e2 Hi Hj Hu1 Hu2 Heq.
  apply list_lookup_insert_Some in Hi as [(-> & <- & _) | [Hni Hi]];
    apply list_lookup_insert_Some in Hj as [(Hj & <- & _) | [Hnj Hj]].
  - done.
  - cbn [filename] in Heq. symmetry in Heq. by destruct (Hother j e2 Hj Hu2).
  - cbn [filename] in Heq. by destruct (Hother i e1 Hi Hu1).
  - by apply (Huniq i j e1 e2).
Qed.

Lemma step_unique fs o : unique_names fs → unique_names (step fs o).
Proof.
  intros Huniq. destruct o as [name payload | name]; simpl.
  - unfold create, create_file. destruct (_ =? 0); [done|].
    destruct (delete_existing_unique fs name Huniq) as [Hu Ha].
    by apply create_new_unique.
  - by apply delete_file_unique.
Qed.

Lemma format_unique fs : unique_names (snd (format fs)).
Proof.
  intros i j e1 e2 Hi _ Hu1 _ _. unfold records, format in Hi.
  cbn [snd file_table] in Hi. apply lookup_take_Some in Hi as [Hi _].
  apply lookup_replicate in Hi as [-> _]. by destruct empty_entry_free.
Qed.

Lemma run_unique fs ops : unique_names fs → unique_names (run fs ops).
Proof.
  unfold run. revert fs. induction ops as [|o ops IH]; intros fs Hfs; [done|].
  simpl. by apply IH, step_unique.
Qed.

(** X9.  On a region that holds the layout and lies inside the address
    space, in every store reached from [initialize] by creates (names that
    fit the name field, payloads shorter than [2^32 - 1023] bytes) and
    deletes, no two live records hold the same name: a create under an
    existing name replaces the record, it never adds a second one. *)
Theorem names_stay_unique mem memory_address size ops :
  0 ≤ memory_address →
  memory_address + size < 2 ^ 32 →
  layout_overhead size ≤ size →
  Forall bounded_operation ops →
  unique_names (run (snd (initialize mem memory_address size)) ops).
Proof. intros _ _ _ _. apply run_unique, format_unique. Qed.

Lemma names_stay_unique_witness :
  unique_names (run fresh [Create "a" [x41]; Create "a" [x42]; Delete "b"]).
Proof.
  apply (names_stay_unique zero_memory 2097152 RAMDISK_DEFAULT_SIZE
           [Create "a" [x41]; Create "a" [x42]; Delete "b"]).
  - by vm_compute.
  - by vm_compute.
  - by vm_compute.
  - repeat constructor; by vm_compute.
Defined.

(** X10.  In a laid out store where no two live records hold the same
    name, a delete leaves no live record of that name: the file does not
    exist afterwards, a second delete fails and changes nothing. *)
Theorem delete_then_absent fs name :
  laid_out fs →
  unique_names fs →
  file_exists (snd (delete_file fs name)) name = false ∧
  delete_file (snd (delete_file fs name)) name = (false, snd (delete_file fs name)).
Proof.
  intros _ Huniq. pose proof (delete_file_removes fs name Huniq) as Habsent.
  apply find_file_entry_None in Habsent. split.
  - unfold file_exists. apply bool_decide_eq_false_2. rewrite Habsent. by intros [? ?].
  - by apply delete_file_none.
Qed.

Lemma delete_then_absent_witness :
  file_exists (snd (delete_file (run fresh [Create "a" [x41]; Create "b" [x42]]) "a")) "a"
  = false.
Proof.
  apply (delete_then_absent (run fresh [Create "a" [x41]; Create "b" [x42]]) "a");
    [by_evaluation|].
  apply (run_unique (snd (format (mkFS 2097152 RAMDISK_DEFAULT_SIZE 2097668 2098692
           2329092 (mkSuperblock EmptyString 0 0 0 0 0 0) [] []
           (λ off, zero_memory (231940 + off)))))).
  apply format_unique.
Defined.

Lemma list_find_insert_same {A} (P : A → Prop) `{!∀ x, Decision (P x)} (l : list A) :
  ∀ i x y, l !! i = Some x → ¬ P x → ¬ P y →
           list_find P (<[i := y]> l) = list_find P l.
Proof.
  induction l as [|a l IH]; intros i x y Hi Hx Hy; [done|].
  destruct i as [|i]; simpl in *.
  - injection Hi as ->. by rewrite !decide_False.
  - destruct (decide (P a)); [done|]. by rewrite (IH i x y).
Qed.

(** X11.  In a laid out store, right after [delete_file] of one name the
    lookup of any other name gives the record it gave before, the data
    region holds the bytes it held, and a [read] of the other name gives
    the result and the buffer it would have given before the delete.  In
    the allocation table the delete changes the entries of the run
    [start_block .. start_block + blocks_needed - 1] of the deleted record
    and no other; that run can hold blocks of other files, as in C2. *)
Theorem delete_keeps_other_files fs name other buffer capacity :
  laid_out fs →
  copy_str other ≠ copy_str name →
  find_file_entry (snd (delete_file fs name)) other = find_file_entry fs other ∧
  data (snd (delete_file fs name)) = data fs ∧
  (read (snd (delete_file fs name)) other buffer capacity).1.1
  = (read fs other buffer capacity).1.1 ∧
  (read (snd (delete_file fs name)) other buffer capacity).2
  = (read fs other buffer capacity).2 ∧
  (∀ idx e (j : nat),
     find_file_entry fs name = Some (idx, e) →
     ¬ (start_block e ≤ Z.of_nat j
        < start_block e + calculate_blocks_needed (size e)) →
     fat (snd (delete_file fs name)) !! j = fat fs !! j).
Proof.
  intros Hlaid Hother.
  assert (Hrun : ∀ idx e (j : nat),
            find_file_entry fs name = Some (idx, e) →
            ¬ (start_block e ≤ Z.of_nat j
               < start_block e + calculate_blocks_needed (size e)) →
            fat (snd (delete_file fs name)) !! j = fat fs !! j).
  { intros idx e j Hfound Hout.
    pose proof (find_file_entry_Some _ _ _ _ Hfound) as (Hidx & Huse & _).
    apply records_lookup in Hidx as [Hidx _].
    destruct Hlaid as (Hareas & _ & _ & Hfat & _ & Hrecords).
    eapply Forall_lookup_1 in Hrecords as [_ Hok]; [|exact Hidx].
    destruct (Hok Huse) as (Hstart & _ & _ & Hend).
    unfold delete_file. rewrite Hfound. cbn [snd fat].
    unfold areas_ok, sizeof_RAMDiskSuperblock, sizeof_RAMDiskFileEntry,
      RAMDISK_MAX_FILES, RAMDISK_FILENAME_LEN, RAMDISK_BLOCK_SIZE in Hareas.
    assert (0 ≤ calculate_blocks_needed (size e)).
    { unfold calculate_blocks_needed, u32, RAMDISK_BLOCK_SIZE.
      apply Z.div_pos; [apply Z.mod_pos_bound|]; lia. }
    rewrite free_blocks_loop_lookup by lia.
    rewrite decide_False; [done | lia]. }
  assert (Hdata : data (snd (delete_file fs name)) = data fs).
  { unfold delete_file. by destruct (find_file_entry fs name) as [[idx e]|]. }
  assert (Hfind : find_file_entry (snd (delete_file fs name)) other
                  = find_file_entry fs other).
  { destruct (find_file_entry fs name) as [[idx entry]|] eqn:Efind.
    2:{ unfold delete_file. by rewrite Efind. }
    unfold find_file_entry at 1 2. rewrite (delete_file_found _ _ _ _ Efind).
    apply find_file_entry_Some in Efind as Hfound. destruct Hfound as (Hidx & _).
    unfold find_file_entry in Efind. apply list_find_Some in Efind as (_ & Hnamed & _).
    apply named_iff in Hnamed as [_ Hname].
    apply (list_find_insert_same _ _ idx entry); [done | |].
    - rewrite named_iff. intros [_ He]. congruence.
    - intros [Hu _]. by destruct empty_entry_free. }
  split; [done|]. split; [done|].
  assert (Hread : read (snd (delete_file fs name)) other buffer capacity
                  = ((read fs other buffer capacity).1.1,
                     snd (delete_file fs name),
                     (read fs other buffer capacity).2)).
  { unfold read, read_file. rewrite Hfind, Hdata.
    destruct (find_file_entry fs other) as [[idx entry]|]; [|done].
    by destruct (capacity <? size entry). }
  rewrite Hread. done.
Qed.

Lemma delete_keeps_other_files_witness :
  (read (snd (delete_file (run fresh [Create "a" [x41]; Create "b" [x42]]) "a"))
        "b" [x00] 1).2
  = (read (run fresh [Create "a" [x41]; Create "b" [x42]]) "b" [x00] 1).2.
Proof.
  apply (delete_keeps_other_files (run fresh [Create "a" [x41]; Create "b" [x42]])
           "a" "b" [x00] 1).
  - by_evaluation.
  - by vm_compute.
Defined.

End Names.

(** * Creating without enough space *)

(** C5, as the code has it.  For a payload shorter than [2^32 - 1023]
    bytes.  When no live record is called [name] and the payload needs more
    blocks than [free_blocks], [create] returns [false] and the store after
    the call is the store before it.  When a live record is called [name]
    (in a laid out store, with a payload that is not empty), it is deleted
    before the space check: the store [delete_file] leaves differs from the
    store before the call, the record is cleared, the blocks of its run are
    free and counted in [free_blocks], and with unique names no record of
    that name is left; the check compares with that [free_blocks]; a call
    that fails, there or later, leaves that store, and a call that succeeds
    leaves the file table with the old record cleared and the new record in
    the first free one. *)
Theorem create_insufficient_space fs name payload :
  Z.of_nat (length payload) + RAMDISK_BLOCK_SIZE - 1 < 2 ^ 32 →
  (no_live_record fs name →
   free_blocks (superblock fs) < blocks_for (Z.of_nat (length payload)) →
   create fs name payload = (false, fs))
  ∧
  (∀ idx e,
     laid_out fs →
     find_file_entry fs name = Some (idx, e) →
     payload ≠ [] →
     let fs1 := snd (delete_file fs name) in
     fs1 ≠ fs ∧
     file_table fs1 = <[idx := empty_entry]> (file_table fs) ∧
     (∀ b, start_block e ≤ b < start_block e + calculate_blocks_needed (size e) →
           fat fs1 !! Z.to_nat b = Some x00) ∧
     free_blocks (superblock fs1)
     = u32 (free_blocks (superblock fs) + calculate_blocks_needed (size e)) ∧
     (unique_names fs → find_file_entry fs1 name = None) ∧
     (free_blocks (superblock fs1) < blocks_for (Z.of_nat (length payload)) →
      create fs name payload = (false, fs1)) ∧
     (fst (create fs name payload) = false → snd (create fs name payload) = fs1) ∧
     (fst (create fs name payload) = true →
      ∃ idx' e0 start,
        find_free_file_entry fs1 = Some (idx', e0) ∧
        file_table (snd (create fs name payload))
        = <[idx' := mkFileEntry (copy_str name) start (Z.of_nat (length payload)) 0 0]>
            (<[idx := empty_entry]> (file_table fs)))).
Proof.
  intros Hlen. split.
  { intros Habsent Hfree. unfold create, create_file.
    destruct (Z.of_nat (length payload) =? 0); [done|].
    rewrite delete_existing_absent by done.
    apply create_new_no_space.
    rewrite calculate_blocks_needed_exact; [done | lia | done]. }
  intros idx e Hlaid Hfind Hpayload. cbv zeta.
  assert (Hcreate : create fs name payload
                    = create_new (snd (delete_file fs name)) name payload
                                 (Z.of_nat (length payload))).
  { unfold create, create_file.
    destruct (Z.of_nat (length payload) =? 0) eqn:E.
    - apply Z.eqb_eq in E. by destruct payload.
    - unfold delete_existing. by rewrite Hfind. }
  pose proof (find_file_entry_Some _ _ _ _ Hfind) as (Hidx & Huse & _).
  apply records_lookup in Hidx as [Hidx _].
  destruct Hlaid as (Hareas & _ & _ & Hfat & _ & Hrecords).
  eapply Forall_lookup_1 in Hrecords as [_ Hrun]; [|exact Hidx].
  destruct (Hrun Huse) as (Hstart & _ & _ & Hend).
  assert (Htable : file_table (snd (delete_file fs name))
                   = <[idx := empty_entry]> (file_table fs)).
  { unfold delete_file. by rewrite Hfind. }
  split.
  { intros Heq. rewrite Heq in Htable.
    apply (f_equal (λ l, l !! idx)) in Htable.
    rewrite list_lookup_insert_eq in Htable by (by eapply lookup_lt_Some).
    rewrite Hidx in Htable. injection Htable as ->. by apply Huse. }
  split; [done|]. split.
  { intros b Hb. unfold delete_file. rewrite Hfind. cbn [snd fat].
    assert (Hb0 : 0 ≤ calculate_blocks_needed (size e)) by lia.
    unfold areas_ok, sizeof_RAMDiskSuperblock, sizeof_RAMDiskFileEntry,
      RAMDISK_MAX_FILES, RAMDISK_FILENAME_LEN, RAMDISK_BLOCK_SIZE in Hareas.
    rewrite free_blocks_loop_lookup by lia.
    rewrite decide_True; [done | lia]. }
  split; [unfold delete_file; by rewrite Hfind|].
  split.
  { intros Huniq. apply find_file_entry_None. by apply delete_file_removes. }
  split.
  { intros Hfree. rewrite Hcreate. apply create_new_no_space.
    rewrite calculate_blocks_needed_exact; [done | lia | done]. }
  rewrite Hcreate.
  destruct (create_new_cases (snd (delete_file fs name)) name payload
              (Z.of_nat (length payload)))
    as [-> | (idx' & e0 & Hslot & _ & ->)].
  - split; [done|]. by intros [=].
  - split; [by intros [=]|]. intros _. eexists idx', e0, _.
    split; [done|]. cbn [snd file_table]. by rewrite Htable.
Qed.

Lemma create_insufficient_space_witness :
  create small "a" (replicate (Z.to_nat 2049) x42) = (false, small) ∧
  (let fs := run small [Create "a" [x41]] in
   snd (delete_file fs "a") ≠ fs ∧
   find_file_entry (snd (delete_file fs "a")) "a" = None ∧
   create fs "a" (replicate (Z.to_nat 2049) x42) = (false, snd (delete_file fs "a"))).
Proof.
  split.
  - apply (create_insufficient_space small "a" (replicate (Z.to_nat 2049) x42)).
    + vm_compute. reflexivity.
    + apply find_file_entry_None. vm_compute. reflexivity.
    + vm_compute. reflexivity.
  - cbv zeta.
    destruct (create_insufficient_space (run small [Create "a" [x41]]) "a"
                (replicate (Z.to_nat 2049) x42)) as [_ H];
      [vm_compute; reflexivity|].
    destruct (H 0%nat (mkFileEntry "a" 0 1 0 0)) as (H1 & _ & _ & _ & H2 & H3 & _).
    + by_evaluation.
    + vm_compute. reflexivity.
    + done.
    + split; [exact H1|]. split.
      * apply H2. apply run_unique, format_unique.
      * apply H3. vm_compute. reflexivity.
Defined.

(** C5, as the specification states it, fails when a live record of that
    name exists.  On the 2-block store holding ["a"] in one block, 1 block
    is free and a payload of 2048 bytes needs 2; the call deletes ["a"]
    first, finds 2 free blocks and succeeds, and the allocation table and
    the file table are no longer what they were. *)
Lemma create_over_existing_succeeds :
  let fs := run small [Create "a" [x41]] in
  let payload := replicate (Z.to_nat 2048) x42 in
  ¬ no_live_record fs "a" ∧
  free_blocks (superblock fs) < blocks_for (Z.of_nat (length payload)) ∧
  fst (create fs "a" payload) = true ∧
  fat (snd (create fs "a" payload)) ≠ fat fs ∧
  file_table (snd (create fs "a" payload)) ≠ file_table fs.
Proof.
  cbv zeta. split; [|split; [|split; [|split]]].
  - rewrite <- find_file_entry_None. by vm_compute.
  - by vm_compute.
  - by vm_compute.
  - by vm_compute.
  - by vm_compute.
Qed.


(** * Space accounting *)

Section Accounting.

Lemma blocks_of_nonneg e : 0 ≤ blocks_of e.
Proof.
  unfold blocks_of. case_decide; [|done].
  unfold calculate_blocks_needed, u32, RAMDISK_BLOCK_SIZE.
  apply Z.div_pos; [apply Z.mod_pos_bound|]; lia.
Qed.

Lemma sum_blocks_insert (l : list RAMDiskFileEntry) : ∀ i x y,
  l !! i = Some x →
  foldr (λ e acc, blocks_of e + acc) 0 (<[i := y]> l)
  = foldr (λ e acc, blocks_of e + acc) 0 l - blocks_of x + blocks_of y.
Proof.
  induction l as [|a l IH]; intros i x y Hi; [done|].
  destruct i as [|i]; simpl in *.
  - injection Hi as ->. lia.
  - rewrite (IH i x y Hi). lia.
Qed.

Lemma sum_blocks_nonneg (l : list RAMDiskFileEntry) :
  0 ≤ foldr (λ e acc, blocks_of e + acc) 0 l.
Proof.
  induction l as [|a l IH]; simpl; [done|].
  pose proof (blocks_of_nonneg a). lia.
Qed.

Lemma used_blocks_insert fs fs' idx old new :
  records fs !! idx = Some old →
  file_table fs' = <[idx := new]> (file_table fs) →
  used_blocks fs' = used_blocks fs - blocks_of old + blocks_of new.
Proof.
  intros Hold Htable. unfold used_blocks.
  rewrite (records_after_insert fs fs' idx old new Hold Htable).
  by apply sum_blocks_insert.
Qed.

Lemma delete_file_accounted fs name :
  accounted fs → accounted (snd (delete_file fs name)).
Proof.
  intros (Hfree & Hsum & Htotal).
  destruct (find_file_entry fs name) as [[idx entry]|] eqn:Efind.
  2:{ unfold delete_file. by rewrite Efind. }
  apply find_file_entry_Some in Efind as Hfound. destruct Hfound as (Hidx & Huse & _).
  pose proof (used_blocks_insert fs (snd (delete_file fs name)) idx entry empty_entry Hidx)
    as Hused.
  unfold delete_file in Hused |- *. rewrite Efind in Hused |- *.
  cbn [snd file_table] in Hused. specialize (Hused eq_refl).
  unfold accounted. cbn [snd superblock free_blocks total_blocks set_counts].
  rewrite Hused.
  assert (blocks_of empty_entry = 0) as -> by done.
  assert (blocks_of entry = calculate_blocks_needed (size entry)) as Hentry
    by (unfold blocks_of; by rewrite decide_True).
  pose proof (blocks_of_nonneg entry).
  pose proof (sum_blocks_nonneg (<[idx := empty_entry]> (records fs))) as Hrest.
  rewrite sum_blocks_insert with (x := entry) in Hrest by done.
  fold (used_blocks fs) in Hrest.
  assert (blocks_of empty_entry = 0) as Hz by done. rewrite Hz in Hrest.
  rewrite Hentry in *. unfold RAMDISK_BLOCK_SIZE in *.
  unfold u32. rewrite Z.mod_small by lia. lia.
Qed.

Lemma create_new_accounted fs name payload size :
  first_byte name ≠ zero →
  accounted fs → accounted (snd (create_new fs name payload size)).
Proof.
  intros Hname (Hfree & Hsum & Htotal).
  destruct (create_new fs name payload size) as [[] fs'] eqn:Ecreate.
  2:{ unfold create_new in Ecreate.
      destruct (find_free_file_entry fs) as [[idx e0]|]; [|by injection Ecreate as <-].
      destruct (_ <? _); [by injection Ecreate as <-|].
      destruct (_ <? _); [by injection Ecreate as <-| done]. }
  pose proof (create_new_superblock _ _ _ _ _ Ecreate) as Hsb.
  assert (Hroom : calculate_blocks_needed size ≤ free_blocks (superblock fs)).
  { unfold create_new in Ecreate.
    destruct (find_free_file_entry fs) as [[idx e0]|]; [|done].
    destruct (_ <? _) eqn:E; [done|]. by apply Z.ltb_ge in E. }
  apply create_new_true in Ecreate as (idx & e0 & Hfind & _ & Htable & _).
  apply list_find_Some in Hfind as (Hidx & Hunused & _).
  pose proof (used_blocks_insert fs fs' idx e0 _ Hidx Htable) as Hused.
  assert (blocks_of e0 = 0) as Hz by (unfold blocks_of; by rewrite decide_False).
  assert (blocks_of (mkFileEntry (copy_str name)
            (scan_free_blocks fs (calculate_blocks_needed size) !!! 0%nat) size 0 0)
          = calculate_blocks_needed size) as Hnew.
  { unfold blocks_of. rewrite decide_True; [done|].
    unfold in_use. simpl. by rewrite first_byte_copy_str. }
  rewrite Hz, Hnew in Hused.
  assert (0 ≤ calculate_blocks_needed size).
  { unfold calculate_blocks_needed, u32, RAMDISK_BLOCK_SIZE.
    apply Z.div_pos; [apply Z.mod_pos_bound|]; lia. }
  pose proof (sum_blocks_nonneg (records fs)) as Hpos. fold (used_blocks fs) in Hpos.
  cbn [snd]. unfold accounted. rewrite Hsb, Hused.
  cbn [free_blocks total_blocks set_counts]. unfold RAMDISK_BLOCK_SIZE in *.
  unfold u32. rewrite Z.mod_small by lia. lia.
Qed.

Lemma delete_existing_accounted fs name :
  accounted fs → accounted (delete_existing fs name).
Proof.
  intros H. unfold delete_existing.
  destruct (find_file_entry fs name); [by apply delete_file_accounted | done].
Qed.

Lemma step_accounted fs o :
  plain_operation o → accounted fs → accounted (step fs o).
Proof.
  destruct o as [name payload | name]; simpl.
  - intros [Hname _] Hacc. unfold create, create_file.
    destruct (_ =? 0); [done|].
    by apply create_new_accounted, delete_existing_accounted.
  - intros _. apply delete_file_accounted.
Qed.

Lemma format_accounted fs : accounted (snd (format fs)).
Proof.
  pose proof (format_total_blocks_range fs) as Hrange.
  unfold accounted, used_blocks, records, format in *.
  cbn [snd superblock free_blocks total_blocks file_table] in *.
  change (foldr _ 0 _) with 0.
  unfold RAMDISK_BLOCK_SIZE in *. change (2 ^ 32 / 1024) with 4194304 in Hrange. lia.
Qed.

Lemma run_accounted fs ops :
  accounted fs → Forall plain_operation ops → accounted (run fs ops).
Proof.
  intros Hacc Hops. unfold run. revert fs Hacc.
  induction Hops as [|o ops Ho _ IH]; intros fs Hacc; [done|].
  simpl. apply IH. by apply step_accounted.
Qed.

(** X12.  Space accounting.  On a region that holds the layout and lies
    inside the address space, in every store reached from [initialize] by
    creates (names that are not empty and fit the name field, payloads
    shorter than [2^32 - 1023] bytes) and deletes, [free_blocks] plus the
    blocks of the live records ([calculate_blocks_needed] of each size) is
    [total_blocks], and [free_blocks] is not negative. *)
Theorem space_accounted mem memory_address size ops :
  0 ≤ memory_address →
  memory_address + size < 2 ^ 32 →
  layout_overhead size ≤ size →
  Forall bounded_operation ops →
  Forall plain_operation ops →
  0 ≤ free_blocks (superblock (run (snd (initialize mem memory_address size)) ops)) ∧
  free_blocks (superblock (run (snd (initialize mem memory_address size)) ops))
  + used_blocks (run (snd (initialize mem memory_address size)) ops)
  = total_blocks (superblock (run (snd (initialize mem memory_address size)) ops)).
Proof.
  intros _ _ _ _ Hops.
  destruct (run_accounted (snd (initialize mem memory_address size)) ops)
    as (H1 & H2 & _); [apply format_accounted | done | done].
Qed.

Lemma space_accounted_witness :
  free_blocks (superblock (run fresh [Create "a" [x41]; Create "b" [x42]; Delete "a"]))
  + used_blocks (run fresh [Create "a" [x41]; Create "b" [x42]; Delete "a"])
  = total_blocks (superblock (run fresh [Create "a" [x41]; Create "b" [x42]; Delete "a"])).
Proof.
  apply (space_accounted zero_memory 2097152 RAMDISK_DEFAULT_SIZE
           [Create "a" [x41]; Create "b" [x42]; Delete "a"]).
  - by vm_compute.
  - by vm_compute.
  - by vm_compute.
  - repeat constructor; by vm_compute.
  - repeat constructor; by vm_compute.
Defined.

(** X13.  In every such store (a region that holds the layout inside the
    address space; creates of names that are not empty and fit the name
    field, with payloads shorter than [2^32 - 1023] bytes; deletes) the two
    space queries do not wrap around and are consistent: [get_free_space]
    is [free_blocks * 1024], [get_total_space] is [total_blocks * 1024],
    and the free space is at most the total space. *)
Theorem free_space_within_total mem memory_address size ops :
  0 ≤ memory_address →
  memory_address + size < 2 ^ 32 →
  layout_overhead size ≤ size →
  Forall bounded_operation ops →
  Forall plain_operation ops →
  get_free_space (run (snd (initialize mem memory_address size)) ops)
  = free_blocks (superblock (run (snd (initialize mem memory_address size)) ops))
    * RAMDISK_BLOCK_SIZE ∧
  get_total_space (run (snd (initialize mem memory_address size)) ops)
  = total_blocks (superblock (run (snd (initialize mem memory_address size)) ops))
    * RAMDISK_BLOCK_SIZE ∧
  get_free_space (run (snd (initialize mem memory_address size)) ops)
  ≤ get_total_space (run (snd (initialize mem memory_address size)) ops).
Proof.
  intros _ _ _ _ Hops.
  destruct (run_accounted (snd (initialize mem memory_address size)) ops)
    as (Hfree & Hsum & Htotal); [apply format_accounted | done |].
  set (fs := run _ ops) in *.
  pose proof (sum_blocks_nonneg (records fs)) as Hused. fold (used_blocks fs) in Hused.
  unfold get_free_space, get_total_space, u32, RAMDISK_BLOCK_SIZE in *.
  rewrite !Z.mod_small by lia. lia.
Qed.

Lemma free_space_within_total_witness :
  get_free_space (run fresh [Create "a" [x41]])
  ≤ get_total_space (run fresh [Create "a" [x41]]).
Proof.
  apply (free_space_within_total zero_memory 2097152 RAMDISK_DEFAULT_SIZE
           [Create "a" [x41]]).
  - by vm_compute.
  - by vm_compute.
  - by vm_compute.
  - repeat constructor; by vm_compute.
  - repeat constructor; by vm_compute.
Defined.

End Accounting.

(** * Listing *)

Section Listing.

Lemma get_file_list_loop_records n : ∀ i fs out max_entries count,
  get_file_list_loop n i fs out max_entries count
  = list_records (take n (drop i (file_table fs))) out max_entries count.
Proof.
  induction n as [|n IH]; intros i fs out max count; cbn [get_file_list_loop].
  - by rewrite take_0.
  - destruct (file_table fs !! i) as [e|] eqn:Ei.
    + rewrite (drop_S _ _ _ Ei). cbn [take list_records].
      destruct (Z.of_nat count <? max); [|done].
      destruct (decide (in_use e)); by rewrite IH.
    + rewrite IH. apply lookup_ge_None in Ei.
      rewrite !drop_ge by lia. rewrite !take_nil. simpl.
      by destruct (Z.of_nat count <? max).
Qed.

Lemma list_records_closed (max_entries : Z) (l : list RAMDiskFileEntry) :
  ∀ out count,
    Z.of_nat count ≤ max_entries →
    max_entries ≤ Z.of_nat (length out) →
    list_records l out max_entries count
    = (Z.of_nat (count + min (length (filter in_use l)) (Z.to_nat max_entries - count)),
       take count out
       ++ (listed <$> take (min (length (filter in_use l)) (Z.to_nat max_entries - count))
                           (filter in_use l))
       ++ drop (count + min (length (filter in_use l)) (Z.to_nat max_entries - count)) out).
Proof.
  induction l as [|e l IH]; intros out count Hcount Hout; cbn [list_records].
  - rewrite filter_nil. simpl. rewrite Nat.add_0_r. by rewrite take_drop.
  - destruct (Z.of_nat count <? max_entries) eqn:E.
    + apply Z.ltb_lt in E. rewrite filter_cons.
      destruct (decide (in_use e)) as [Huse | Hfree].
      * rewrite IH by (rewrite ?length_insert; lia).
        cbn [length].
        replace (min (S (length (filter in_use l))) (Z.to_nat max_entries - count))
          with (S (min (length (filter in_use l)) (Z.to_nat max_entries - S count)))
          by lia.
        cbn [take fmap list_fmap].
        rewrite drop_insert_lt by lia.
        assert (take (S count) (<[count := listed e]> out)
                = take count out ++ [listed e]) as ->.
        { rewrite (take_S_r _ _ (listed e)) by (apply list_lookup_insert_eq; lia).
          by rewrite take_insert_ge. }
        rewrite <- app_assoc. simpl.
        repeat f_equal; lia.
      * by apply IH.
    + apply Z.ltb_ge in E.
      replace (Z.to_nat max_entries - count)%nat with 0%nat by lia.
      rewrite Nat.min_0_r, take_0. simpl. rewrite Nat.add_0_r. by rewrite take_drop.
Qed.

Lemma get_file_list_closed fs out max_entries :
  0 ≤ max_entries →
  max_entries ≤ Z.of_nat (length out) →
  get_file_list fs out max_entries
  = (Z.of_nat (min (length (filter in_use (records fs))) (Z.to_nat max_entries)),
     (listed <$> take (min (length (filter in_use (records fs))) (Z.to_nat max_entries))
                      (filter in_use (records fs)))
     ++ drop (min (length (filter in_use (records fs))) (Z.to_nat max_entries)) out).
Proof.
  intros Hmax Hout. unfold get_file_list.
  rewrite get_file_list_loop_records, drop_0. fold (records fs).
  rewrite list_records_closed by done.
  by rewrite Nat.sub_0_r, take_0.
Qed.

(** X14.  [get_file_list] returns the number of live records, capped at
    [max_entries]; the first that many entries of the caller's array hold
    the live records in slot order (names copied as C strings), the rest of
    the array is as it was.  The array has at least [max_entries]
    entries. *)
Theorem get_file_list_snapshot fs out max_entries :
  0 ≤ max_entries →
  max_entries ≤ Z.of_nat (length out) →
  fst (get_file_list fs out max_entries) = Z.min (live_records fs) max_entries ∧
  snd (get_file_list fs out max_entries)
  = (listed <$> take (Z.to_nat (fst (get_file_list fs out max_entries)))
                     (filter in_use (records fs)))
    ++ drop (Z.to_nat (fst (get_file_list fs out max_entries))) out.
Proof.
  intros Hmax Hout. rewrite get_file_list_closed by done. cbn [fst snd].
  rewrite Nat2Z.id. split; [unfold live_records; lia | done].
Qed.

Lemma get_file_list_snapshot_witness :
  fst (get_file_list (run fresh [Create "a" [x41]; Create "b" [x42]; Create "c" [x43]])
                     (replicate 2 empty_entry) 2)
  = Z.min (live_records (run fresh [Create "a" [x41]; Create "b" [x42]; Create "c" [x43]])) 2.
Proof.
  apply (get_file_list_snapshot
           (run fresh [Create "a" [x41]; Create "b" [x42]; Create "c" [x43]])
           (replicate 2 empty_entry) 2); by vm_compute.
Defined.

(** X15.  On a region that holds the layout and lies inside the address
    space, in every store reached from [initialize] by creates (names that
    are not empty and fit the name field, payloads shorter than
    [2^32 - 1023] bytes) and deletes, [get_file_list] and [get_file_count]
    agree: for [max_entries] from 0 to the length of the caller's array,
    the listing returns [file_count], capped at [max_entries]. *)
Theorem get_file_list_counts_files mem memory_address size ops out max_entries :
  0 ≤ memory_address →
  memory_address + size < 2 ^ 32 →
  layout_overhead size ≤ size →
  Forall bounded_operation ops →
  Forall plain_operation ops →
  0 ≤ max_entries →
  max_entries ≤ Z.of_nat (length out) →
  fst (get_file_list (run (snd (initialize mem memory_address size)) ops) out max_entries)
  = Z.min (get_file_count (run (snd (initialize mem memory_address size)) ops))
          max_entries.
Proof.
  intros _ _ _ _ Hops Hmax Hout. rewrite get_file_list_closed by done. cbn [fst].
  pose proof (file_count_preserved (snd (initialize mem memory_address size)) ops
                (format_count _) Hops) as Hcount.
  unfold get_file_count. unfold count_accurate in Hcount. rewrite Hcount.
  unfold live_records. lia.
Qed.

Lemma get_file_list_counts_files_witness :
  fst (get_file_list (run fresh [Create "a" [x41]; Create "b" [x42]])
                     (replicate 16 empty_entry) 16)
  = Z.min (get_file_count (run fresh [Create "a" [x41]; Create "b" [x42]])) 16.
Proof.
  apply (get_file_list_counts_files zero_memory 2097152 RAMDISK_DEFAULT_SIZE
           [Create "a" [x41]; Create "b" [x42]] (replicate 16 empty_entry) 16).
  - by vm_compute.
  - by vm_compute.
  - by vm_compute.
  - repeat constructor; by vm_compute.
  - repeat constructor; by vm_compute.
  - by vm_compute.
  - by vm_compute.
Defined.

End Listing.

(** * A size that wraps around *)

(** X16.  For a [size] above [2^32 - 1024], [calculate_blocks_needed]
    wraps around to 0.  In a laid out store, with a name that fits the name
    field, when a free record is left once a record of that name is
    deleted, [create_file] then returns [true] without marking a block or
    copying a byte: the allocation table, the data region and
    [free_blocks] are those the deletion left. *)
Theorem create_file_size_wraps fs name payload size idx e0 :
  laid_out fs →
  fits name →
  2 ^ 32 - RAMDISK_BLOCK_SIZE < size < 2 ^ 32 →
  find_free_file_entry (delete_existing fs name) = Some (idx, e0) →
  calculate_blocks_needed size = 0 ∧
  fst (create_file fs (Some name) (Some payload) size) = true ∧
  fat (snd (create_file fs (Some name) (Some payload) size))
  = fat (delete_existing fs name) ∧
  data (snd (create_file fs (Some name) (Some payload) size))
  = data (delete_existing fs name) ∧
  free_blocks (superblock (snd (create_file fs (Some name) (Some payload) size)))
  = free_blocks (superblock (delete_existing fs name)).
Proof.
  intros Hlaid _ Hsize Hslot.
  apply (delete_existing_laid_out fs name) in Hlaid as (_ & _ & Hfree & _).
  assert (Hzero : calculate_blocks_needed size = 0).
  { unfold calculate_blocks_needed, u32, RAMDISK_BLOCK_SIZE in *.
    Z.div_mod_to_equations. lia. }
  split; [done|]. unfold create_file.
  destruct (size =? 0) eqn:E0; [apply Z.eqb_eq in E0; unfold RAMDISK_BLOCK_SIZE in *; lia|].
  unfold create_new. rewrite Hslot, Hzero.
  destruct (free_blocks (superblock (delete_existing fs name)) <? 0) eqn:E1;
    [apply Z.ltb_lt in E1; lia|].
  assert (scan_free_blocks (delete_existing fs name) 0 = []) as ->.
  { unfold scan_free_blocks. by destruct (Z.to_nat _). }
  cbn [length Z.of_nat Z.ltb Z.compare fst snd fat data superblock free_blocks
       set_counts Z.to_nat mark_loop copy_blocks_loop].
  repeat split. unfold u32. rewrite Z.sub_0_r. by apply Z.mod_small.
Qed.

Lemma create_file_size_wraps_witness :
  fst (create_file fresh (Some "big") (Some []) 4294967295) = true ∧
  fat (snd (create_file fresh (Some "big") (Some []) 4294967295)) = fat fresh.
Proof.
  pose proof (create_file_size_wraps fresh "big" [] 4294967295 0%nat empty_entry) as H.
  destruct H as (_ & H1 & H2 & _); [by_evaluation | by vm_compute | by vm_compute | by vm_compute |].
  split; [exact H1|]. rewrite H2. by vm_compute.
Defined.

(** * C strings: comparison and length *)

Section StringFacts.

Lemma strcmp_swap s1 : ∀ s2, strcmp s2 s1 = - strcmp s1 s2.
Proof.
  induction s1 as [|c1 r1 IH]; intros s2.
  - destruct s2 as [|c2 r2]; cbn [strcmp first_byte]; [done|].
    destruct (is_nul c2) eqn:E2; cbn [strcmp first_byte]; [|lia].
    apply is_nul_true in E2. subst c2. by change (char_code zero) with 0.
  - destruct s2 as [|c2 r2]; cbn [strcmp first_byte].
    + destruct (is_nul c1) eqn:E1; cbn [strcmp first_byte]; [|lia].
      apply is_nul_true in E1. subst c1. by change (char_code zero) with 0.
    + destruct (is_nul c1) eqn:E1, (is_nul c2) eqn:E2; cbn [strcmp first_byte].
      * apply is_nul_true in E1, E2. subst. by change (char_code zero) with 0.
      * apply is_nul_true in E1. subst c1. apply is_nul_false in E2.
        rewrite bool_decide_eq_false_2 by done. change (char_code zero) with 0. lia.
      * apply is_nul_true in E2. subst c2. apply is_nul_false in E1.
        rewrite bool_decide_eq_false_2 by done. change (char_code zero) with 0. lia.
      * case_bool_decide as H12; case_bool_decide as H21; try congruence;
          first [apply IH | lia].
Qed.

(** X17.  [strcmp] returns 0 exactly when the two strings hold the same
    characters before their terminators, and swapping the arguments negates
    the result. *)
Theorem strcmp_equal_and_swap s1 s2 :
  (strcmp s1 s2 = 0 ↔ copy_str s1 = copy_str s2) ∧ strcmp s2 s1 = - strcmp s1 s2.
Proof. split; [apply strcmp_zero_iff | apply strcmp_swap]. Qed.

Lemma strlen_length s : strlen s = Z.of_nat (String.length (copy_str s)).
Proof.
  induction s as [|c r IH]; [done|]. simpl.
  destruct (is_nul c); [done|]. simpl String.length. lia.
Qed.

Lemma copy_str_idem s : copy_str (copy_str s) = copy_str s.
Proof.
  induction s as [|c r IH]; [done|]. simpl.
  destruct (is_nul c) eqn:E; [done|]. simpl. by rewrite E, IH.
Qed.

(** X18.  A copy made by [copy_str] has the length [strlen] gives for the
    source, compares equal to the source under [strcmp], and [strlen] is 0
    exactly when the first byte is the terminator. *)
Theorem copy_str_keeps_length s :
  strlen (copy_str s) = strlen s ∧
  strcmp (copy_str s) s = 0 ∧
  (strlen s = 0 ↔ first_byte s = zero).
Proof.
  split; [by rewrite !strlen_length, copy_str_idem|].
  split; [apply strcmp_copy_str|].
  rewrite strlen_length, <- copy_str_empty_iff.
  destruct (copy_str s); simpl; split; intros H; try done; lia.
Qed.

End StringFacts.

Section Strncmp.

Lemma char_code_range c : 0 ≤ char_code c < 256.
Proof.
  unfold char_code. pose proof (N_ascii_bounded c). lia.
Qed.

Lemma signed_char_inj c1 c2 : signed_char c1 = signed_char c2 → c1 = c2.
Proof.
  unfold signed_char. intros H. apply char_code_inj.
  pose proof (char_code_range c1). pose proof (char_code_range c2).
  destruct (char_code c1 <? 128) eqn:E1, (char_code c2 <? 128) eqn:E2;
    rewrite ?Z.ltb_lt, ?Z.ltb_ge in *; lia.
Qed.

Lemma char_at_0 s : char_at s 0 = first_byte s.
Proof. by destruct s. Qed.

Lemma strncmp_loop_shift k : ∀ i c1 r1 c2 r2,
  strncmp_loop k (S i) (String c1 r1) (String c2 r2) = strncmp_loop k i r1 r2.
Proof.
  induction k as [|k IH]; intros i c1 r1 c2 r2; [done|].
  cbn [strncmp_loop].
  change (char_at (String c1 r1) (S i)) with (char_at r1 i).
  change (char_at (String c2 r2) (S i)) with (char_at r2 i).
  by rewrite IH.
Qed.

Lemma c_chars_cons s :
  c_chars s = if is_nul (first_byte s) then []
              else first_byte s :: c_chars (match s with String _ r => r | EmptyString => EmptyString end).
Proof.
  destruct s as [|c r]; [done|]. unfold c_chars. simpl.
  by destruct (is_nul c).
Qed.

Lemma strncmp_loop_prefix k : ∀ s1 s2,
  strncmp_loop k 0 s1 s2 = 0 ↔ take k (c_chars s1) = take k (c_chars s2).
Proof.
  induction k as [|k IH]; intros s1 s2; [done|].
  cbn [strncmp_loop]. rewrite !char_at_0, (c_chars_cons s1), (c_chars_cons s2).
  case_bool_decide as Hne.
  - split.
    + intros H. destruct Hne. apply signed_char_inj. lia.
    + destruct (is_nul (first_byte s1)) eqn:E1, (is_nul (first_byte s2)) eqn:E2;
        rewrite ?is_nul_true, ?is_nul_false in *; simpl; try done; try congruence.
  - rewrite <- Hne.
    destruct (is_nul (first_byte s1)) eqn:E1; [done|].
    apply is_nul_false in E1.
    destruct s1 as [|c1 r1]; [done|]. destruct s2 as [|c2 r2]; [simpl in *; congruence|].
    rewrite strncmp_loop_shift, IH. simpl.
    split; [by intros -> | by intros [= ?]].
Qed.

(** X19.  [strncmp] returns 0 exactly when the two strings agree on their
    first [n] characters (on all of them when both are shorter). *)
Theorem strncmp_equal_prefix s1 s2 n :
  strncmp s1 s2 n = 0 ↔ take (Z.to_nat n) (c_chars s1) = take (Z.to_nat n) (c_chars s2).
Proof. apply strncmp_loop_prefix. Qed.

End Strncmp.

(** * The bump allocator *)

Section Allocator.

Lemma round4_land x :
  0 ≤ x < 2 ^ 32 → Z.land x (u32 (Z.lnot 3)) = 4 * (x / 4).
Proof.
  intros Hx. change (u32 (Z.lnot 3)) with (Z.shiftl (Z.ones 30) 2).
  replace (4 * (x / 4)) with (Z.shiftl (Z.shiftr x 2) 2)
    by (rewrite Z.shiftl_mul_pow2, Z.shiftr_div_pow2 by lia; change (2 ^ 2) with 4; lia).
  apply Z.bits_inj'. intros n Hn.
  rewrite Z.land_spec, !Z.shiftl_spec by lia.
  destruct (Z.lt_ge_cases n 2) as [Hlow | Hhigh].
  - rewrite (Z.testbit_neg_r (Z.ones 30)), (Z.testbit_neg_r (Z.shiftr x 2)) by lia.
    apply andb_false_r.
  - rewrite Z.shiftr_spec by lia. replace (n - 2 + 2) with n by lia.
    destruct (Z.lt_ge_cases n 32) as [H32 | H32].
    + rewrite Z.ones_spec_low by lia. apply andb_true_r.
    + rewrite Z.ones_spec_high by lia. rewrite andb_false_r.
      rewrite <- (Z.mod_small x (2 ^ 32)) by lia.
      symmetry. apply Z.mod_pow2_bits_high. lia.
Qed.

Lemma allocate_rounds a size :
  0 ≤ size → size + 3 < 2 ^ 32 →
  allocate a size
  = if u32 (memory_start a + total_memory a) <? u32 (current_ptr a + round4 size)
    then (0, a)
    else (current_ptr a,
          mkAllocator (memory_start a) (u32 (current_ptr a + round4 size)) (total_memory a)).
Proof.
  intros H0 H3. unfold allocate, round4.
  assert (u32 (size + 3) = size + 3) as -> by (unfold u32; apply Z.mod_small; lia).
  by rewrite round4_land by lia.
Qed.

Lemma round4_bounds size : size ≤ round4 size < size + 4 ∧ round4 size mod 4 = 0.
Proof. unfold round4. split; Z.div_mod_to_equations; lia. Qed.

Lemma allocate_cases a size :
  pool_ok a →
  0 ≤ size →
  memory_start a + total_memory a + size + 3 < 2 ^ 32 →
  (current_ptr a + round4 size ≤ memory_start a + total_memory a →
   allocate a size
   = (current_ptr a,
      mkAllocator (memory_start a) (current_ptr a + round4 size) (total_memory a))) ∧
  (memory_start a + total_memory a < current_ptr a + round4 size →
   allocate a size = (0, a)) ∧
  pool_ok (snd (allocate a size)).
Proof.
  intros (Hstart & Hcur & Htop) Hsize Hsmall.
  pose proof (round4_bounds size) as [Hround _].
  rewrite allocate_rounds by lia. unfold u32.
  rewrite (Z.mod_small (memory_start a + total_memory a)) by lia.
  rewrite (Z.mod_small (current_ptr a + round4 size)) by lia.
  destruct (_ <? _) eqn:E; rewrite ?Z.ltb_lt, ?Z.ltb_ge in E.
  - split; [lia|]. split; [done|]. done.
  - split; [done|]. split; [lia|].
    unfold pool_ok. cbn [snd memory_start current_ptr total_memory]. lia.
Qed.

(** X20.  With requests small enough that no address computation wraps
    around, [allocate] succeeds exactly when the rounded size fits what is
    left of the pool: it then returns the old [current_ptr] and advances it
    by the size rounded up to a multiple of 4; otherwise it returns the
    null pointer and leaves the allocator as it was.  The pool stays
    well formed. *)
Theorem allocate_within_pool a size :
  pool_ok a →
  0 ≤ size →
  memory_start a + total_memory a + size + 3 < 2 ^ 32 →
  (current_ptr a + round4 size ≤ memory_start a + total_memory a →
   allocate a size
   = (current_ptr a,
      mkAllocator (memory_start a) (current_ptr a + round4 size) (total_memory a))) ∧
  (memory_start a + total_memory a < current_ptr a + round4 size →
   allocate a size = (0, a)) ∧
  pool_ok (snd (allocate a size)).
Proof. apply allocate_cases. Qed.

Lemma allocate_within_pool_witness :
  allocate initial_allocator 10
  = (1048576, mkAllocator 1048576 (1048576 + round4 10) 3145728).
Proof.
  apply (allocate_within_pool initial_allocator 10); by vm_compute.
Defined.

(** X21.  In a pool above address 0, with both requests small enough
    that no address sum wraps around
    ([memory_start + total_memory + size + 3 < 2^32] for each), two
    allocations in a row, both successful, give blocks inside the pool that
    do not overlap: the second starts at or after the end of the first. *)
Theorem allocations_do_not_overlap a size1 size2 :
  pool_ok a →
  0 < memory_start a →
  0 ≤ size1 → 0 ≤ size2 →
  memory_start a + total_memory a + size1 + 3 < 2 ^ 32 →
  memory_start a + total_memory a + size2 + 3 < 2 ^ 32 →
  fst (allocate a size1) ≠ 0 →
  fst (allocate (snd (allocate a size1)) size2) ≠ 0 →
  memory_start a ≤ fst (allocate a size1) ∧
  fst (allocate a size1) + size1 ≤ fst (allocate (snd (allocate a size1)) size2) ∧
  fst (allocate (snd (allocate a size1)) size2) + size2
  ≤ memory_start a + total_memory a.
Proof.
  intros Hok Hstart H1 H2 Hs1 Hs2 Hp1 Hp2.
  pose proof Hok as (_ & Hcur & Htop).
  pose proof (round4_bounds size1) as [Hr1 _].
  pose proof (round4_bounds size2) as [Hr2 _].
  destruct (allocate_cases a size1 Hok H1 Hs1) as (Hfit1 & Hfail1 & Hok1).
  destruct (Z.le_gt_cases (current_ptr a + round4 size1)
                          (memory_start a + total_memory a)) as [Hroom1 | Hno1].
  2:{ rewrite (Hfail1 Hno1) in Hp1. done. }
  rewrite (Hfit1 Hroom1) in *. cbn [fst snd] in *.
  set (a1 := mkAllocator _ _ _) in *.
  destruct (allocate_cases a1 size2 Hok1 H2 Hs2) as (Hfit2 & Hfail2 & _).
  destruct (Z.le_gt_cases (current_ptr a1 + round4 size2)
                          (memory_start a1 + total_memory a1)) as [Hroom2 | Hno2].
  2:{ rewrite (Hfail2 Hno2) in Hp2. done. }
  rewrite (Hfit2 Hroom2). cbn [fst]. unfold a1 in *.
  cbn [memory_start current_ptr total_memory] in *. lia.
Qed.

Lemma allocations_do_not_overlap_witness :
  fst (allocate initial_allocator 10) + 10
  ≤ fst (allocate (snd (allocate initial_allocator 10)) 7).
Proof.
  apply (allocations_do_not_overlap initial_allocator 10 7); by vm_compute.
Defined.

Lemma allocate_aligned a size :
  current_ptr a mod 4 = 0 →
  fst (allocate a size) mod 4 = 0 ∧ current_ptr (snd (allocate a size)) mod 4 = 0.
Proof.
  intros Hal. unfold allocate.
  assert (Hr : Z.land (u32 (size + 3)) (u32 (Z.lnot 3)) mod 4 = 0).
  { rewrite round4_land by (unfold u32; apply Z.mod_pos_bound; lia).
    rewrite Z.mul_comm. apply Z.mod_mul. lia. }
  destruct (_ <? _); cbn [fst snd current_ptr]; [done|]. split; [done|].
  unfold u32. set (r := Z.land _ _) in *.
  change (2 ^ 32) with (4 * 1073741824).
  rewrite Z.rem_mul_r by lia.
  rewrite Z.mul_comm, Z.mod_add by lia. rewrite Z.mod_mod by lia.
  rewrite Z.add_mod, Hal, Hr by lia. done.
Qed.

Lemma allocate_all_aligned sizes : ∀ a,
  current_ptr a mod 4 = 0 → Forall (λ p, p mod 4 = 0) (fst (allocate_all a sizes)).
Proof.
  induction sizes as [|size sizes IH]; intros a Hal; simpl; [constructor|].
  destruct (allocate a size) as [p a'] eqn:Ea.
  destruct (allocate_all a' sizes) as [ps a''] eqn:Eall.
  pose proof (allocate_aligned a size Hal) as [Hp Ha']. rewrite Ea in Hp, Ha'.
  simpl. constructor; [done|].
  specialize (IH a' Ha'). by rewrite Eall in IH.
Qed.

(** X22.  When the pool starts at a multiple of 4, every pointer a run of
    allocations returns is a multiple of 4, whatever the sizes asked
    for. *)
Theorem allocations_aligned start size sizes :
  start mod 4 = 0 →
  Forall (λ p, p mod 4 = 0)
         (fst (allocate_all (SimpleAllocator_initialize start size) sizes)).
Proof. intros Hstart. by apply allocate_all_aligned. Qed.

Lemma allocations_aligned_witness :
  Forall (λ p, p mod 4 = 0) (fst (allocate_all initial_allocator [1; 2; 7; 100])).
Proof.
  apply (allocations_aligned 1048576 3145728 [1; 2; 7; 100]). by vm_compute.
Defined.

(** X23.  The bounds check wraps around: when [current_ptr] plus the
    rounded size reaches [2^32], the sum wraps below the end of the pool
    and [allocate] returns [current_ptr] as if the request fitted, although
    it is larger than what is left of the pool; [current_ptr] moves back
    to the wrapped sum. *)
Theorem allocate_overflow_succeeds a size :
  pool_ok a →
  0 ≤ size → size + 3 < 2 ^ 32 →
  2 ^ 32 ≤ current_ptr a + round4 size →
  memory_start a + total_memory a - current_ptr a < round4 size ∧
  allocate a size
  = (current_ptr a,
     mkAllocator (memory_start a) (current_ptr a + round4 size - 2 ^ 32) (total_memory a)).
Proof.
  intros (Hstart & Hcur & Htop) Hsize Hsmall Hwrap.
  pose proof (round4_bounds size) as [Hround _].
  split; [lia|]. rewrite allocate_rounds by lia. unfold u32.
  rewrite (Z.mod_small (memory_start a + total_memory a)) by lia.
  assert ((current_ptr a + round4 size) mod 2 ^ 32 = current_ptr a + round4 size - 2 ^ 32)
    as ->.
  { symmetry. apply (Z.mod_unique _ _ 1); lia. }
  destruct (_ <? _) eqn:E; [apply Z.ltb_lt in E; lia | done].
Qed.

Lemma allocate_overflow_succeeds_witness :
  allocate initial_allocator 4293918720 = (1048576, mkAllocator 1048576 0 3145728).
Proof.
  pose proof (allocate_overflow_succeeds initial_allocator 4293918720) as H.
  destruct H as [_ H]; [by vm_compute | by vm_compute | by vm_compute | by vm_compute |].
  rewrite H. by vm_compute.
Defined.

End Allocator.

(** * itoa *)

Section Itoa.

Lemma digit_value_digits d :
  0 ≤ d < 16 → digit_value (char_at digits (Z.to_nat d)) = Some d.
Proof.
  intros Hd.
  assert (d = 0 ∨ d = 1 ∨ d = 2 ∨ d = 3 ∨ d = 4 ∨ d = 5 ∨ d = 6 ∨ d = 7 ∨ d = 8
          ∨ d = 9 ∨ d = 10 ∨ d = 11 ∨ d = 12 ∨ d = 13 ∨ d = 14 ∨ d = 15) as H by lia.
  repeat (destruct H as [-> | H]; [by vm_compute|]). subst d. by vm_compute.
Qed.

Lemma decode_app base l1 : ∀ acc l2 v,
  decode base acc l1 = Some v → decode base acc (l1 ++ l2) = decode base v l2.
Proof.
  induction l1 as [|c l1 IH]; intros acc l2 v H; simpl in *.
  - by injection H as ->.
  - destruct (digit_value c) as [d|]; [|done].
    destruct (d <? base); [|done]. by apply IH.
Qed.

Lemma itoa_digits_loop_spec base k : ∀ n buf,
  2 ≤ base ≤ 16 → (0 < k)%nat → 0 ≤ n < base ^ Z.of_nat k →
  ∃ ds, itoa_digits_loop k n base buf = Some (buf ++ ds) ∧
        ∀ acc, decode base acc (rev ds) = Some (acc * base ^ Z.of_nat (length ds) + n).
Proof.
  induction k as [|k IH]; intros n buf Hbase Hk Hn.
  - lia.
  - cbn [itoa_digits_loop].
    pose proof (Z.rem_bound_pos n base) as Hrem.
    pose proof (Z.quot_rem' n base) as Hqr.
    assert (0 ≤ Z.quot n base) as Hq by (apply Z.quot_pos; lia).
    set (d := Z.rem n base) in *. set (q := Z.quot n base) in *.
    assert (Hd : 0 ≤ d < base) by lia.
    assert (Hc : digit_value (char_at digits (Z.to_nat d)) = Some d)
      by (apply digit_value_digits; lia).
    destruct (0 <? q) eqn:E.
    + apply Z.ltb_lt in E.
      assert (Hq' : 0 ≤ q < base ^ Z.of_nat k).
      { rewrite Nat2Z.inj_succ, Z.pow_succ_r in Hn by lia. nia. }
      assert (Hk' : (0 < k)%nat).
      { destruct k; [simpl in Hq'; lia | lia]. }
      destruct (IH q (buf ++ [char_at digits (Z.to_nat d)]) Hbase Hk' Hq')
        as (ds & Hloop & Hdec).
      exists (char_at digits (Z.to_nat d) :: ds). split.
      * rewrite Hloop. by rewrite <- app_assoc.
      * intros acc. simpl rev. rewrite (decode_app _ _ _ _ _ (Hdec acc)).
        simpl. rewrite Hc.
        destruct (d <? base) eqn:Ed; [|apply Z.ltb_ge in Ed; lia].
        f_equal. rewrite Nat2Z.inj_succ, Z.pow_succ_r by lia. lia.
    + apply Z.ltb_ge in E. assert (q = 0) by lia.
      exists [char_at digits (Z.to_nat d)]. split; [done|].
      intros acc. simpl. rewrite Hc.
      destruct (d <? base) eqn:Ed; [|apply Z.ltb_ge in Ed; lia].
      f_equal. lia.
Qed.

Lemma itoa_reverse_loop_spec k : ∀ (mid pre suf : list ascii),
  (length mid ≤ 2 * k)%nat →
  itoa_reverse_loop k (length pre) (length pre + length mid - 1) (pre ++ mid ++ suf)
  = pre ++ rev mid ++ suf.
Proof.
  induction k as [|k IH]; intros mid pre suf Hlen.
  - destruct mid; [done | simpl in Hlen; lia].
  - cbn [itoa_reverse_loop].
    destruct (length pre <? length pre + length mid - 1)%nat eqn:E.
    + apply Nat.ltb_lt in E.
      destruct mid as [|a mid]; [simpl in E; lia|].
      induction mid as [|b mid' _] using rev_ind; [simpl in E; lia|].
      rewrite length_cons, length_app in *. simpl length in *.
      assert (Hstart : (pre ++ (a :: mid' ++ [b]) ++ suf) !!! length pre = a).
      { rewrite lookup_total_app_r by lia. by rewrite Nat.sub_diag. }
      assert (Hp : (pre ++ (a :: mid' ++ [b]) ++ suf)
                     !!! (length pre + S (length mid' + 1) - 1)%nat = b).
      { rewrite lookup_total_app_r by lia.
        replace (length pre + S (length mid' + 1) - 1 - length pre)%nat
          with (S (length mid' + 0)) by lia.
        simpl. rewrite <- app_assoc. by rewrite lookup_total_app_r, Nat.add_0_r, Nat.sub_diag by lia. }
      rewrite Hstart, Hp.
      replace (<[length pre := b]> (pre ++ (a :: mid' ++ [b]) ++ suf))
        with (pre ++ (b :: mid' ++ [b]) ++ suf).
      2:{ rewrite <- (Nat.add_0_r (length pre)) at 1. by rewrite insert_app_r. }
      replace (<[(length pre + S (length mid' + 1) - 1)%nat := a]>
                 (pre ++ (b :: mid' ++ [b]) ++ suf))
        with ((pre ++ [b]) ++ mid' ++ (a :: suf)).
      2:{ replace (length pre + S (length mid' + 1) - 1)%nat
            with (length (pre ++ b :: mid') + 0)%nat
            by (rewrite length_app; simpl; lia).
          replace (pre ++ (b :: mid' ++ [b]) ++ suf)
            with ((pre ++ b :: mid') ++ (b :: suf))
            by (simpl; rewrite <- !app_assoc; by simpl).
          rewrite insert_app_r. simpl. rewrite <- ?app_assoc. by simpl. }
      replace (S (length pre)) with (length (pre ++ [b]))
        by (rewrite length_app; simpl; lia).
      replace (pred (length pre + S (length mid' + 1) - 1))
        with (length (pre ++ [b]) + length mid' - 1)%nat
        by (rewrite length_app; simpl; lia).
      rewrite IH by lia.
      simpl rev. rewrite rev_app_distr. simpl.
      rewrite <- !app_assoc. by simpl.
    + apply Nat.ltb_ge in E.
      destruct mid as [|a [|a' mid]]; [done | done | simpl in E; lia].
Qed.

Lemma itoa_core base n prefix :
  2 ≤ base ≤ 16 → 0 ≤ n < 2 ^ 31 →
  ∃ ds,
    itoa_digits_loop 32 n base prefix = Some (prefix ++ ds) ∧
    itoa_reverse_loop (length (prefix ++ ds)) (length prefix)
                      (length (prefix ++ ds) - 1) (prefix ++ ds)
    = prefix ++ rev ds ∧
    decode base 0 (rev ds) = Some n.
Proof.
  intros Hbase Hn.
  assert (Hpow : 2 ^ 31 ≤ base ^ Z.of_nat 32).
  { change (Z.of_nat 32) with 32.
    transitivity (2 ^ 32); [done|]. apply Z.pow_le_mono_l. lia. }
  destruct (itoa_digits_loop_spec base 32 n prefix Hbase) as (ds & Hloop & Hdec);
    [lia | lia |].
  exists ds. split; [done|]. split.
  - rewrite length_app.
    pose proof (itoa_reverse_loop_spec (length prefix + length ds) ds prefix []) as H.
    rewrite !app_nil_r in H. apply H. lia.
  - rewrite (Hdec 0). f_equal; lia.
Qed.

(** X24.  For a base from 2 to 16 and a value from 0 to [2^31 - 1],
    [itoa] ends and writes the digits of the value, most significant first:
    reading them back in that base gives the value. *)
Theorem itoa_round_trip value base :
  2 ≤ base ≤ 16 → 0 ≤ value < 2 ^ 31 →
  ∃ ds, itoa value base = Some ds ∧ decode base 0 ds = Some value.
Proof.
  intros Hbase Hvalue. unfold itoa.
  assert ((base =? 10) && (value <? 0) = false) as ->.
  { apply andb_false_iff. right. apply Z.ltb_ge. lia. }
  destruct (itoa_core base value [] Hbase Hvalue) as (ds & Hloop & Hrev & Hdec).
  rewrite Hloop. exists (rev ds). split; [|done].
  f_equal. exact Hrev.
Qed.

Lemma itoa_round_trip_witness :
  ∃ ds, itoa 1025 10 = Some ds ∧ decode 10 0 ds = Some 1025.
Proof. apply (itoa_round_trip 1025 10); by vm_compute. Defined.

(** X25.  In base 10 a negative value (above [-2^31]) gives a minus sign
    followed by the digits of its absolute value. *)
Theorem itoa_negative value :
  - 2 ^ 31 < value < 0 →
  ∃ ds, itoa value 10 = Some ("-"%char :: ds) ∧ decode 10 0 ds = Some (- value).
Proof.
  intros Hvalue. unfold itoa.
  assert ((10 =? 10) && (value <? 0) = true) as ->.
  { apply andb_true_iff. split; [done | apply Z.ltb_lt; lia]. }
  destruct (itoa_core 10 (- value) ["-"%char]) as (ds & Hloop & Hrev & Hdec); [lia | lia |].
  rewrite Hloop. exists (rev ds). split; [|done].
  f_equal. exact Hrev.
Qed.

Lemma itoa_negative_witness :
  ∃ ds, itoa (-42) 10 = Some ("-"%char :: ds) ∧ decode 10 0 ds = Some (- -42).
Proof. apply (itoa_negative (-42)). by vm_compute. Defined.

End Itoa.

(** * The editor's buffer *)

Section Editor.

Lemma find_line_start_loop_spec buffer k : ∀ (i : nat) (line_start : Z),
  0 ≤ line_start ≤ Z.of_nat i →
  (line_start = 0 ∨ buffer !!! Z.to_nat (line_start - 1) = newline) →
  (∀ j : nat, line_start ≤ Z.of_nat j < Z.of_nat i → buffer !!! j ≠ newline) →
  line_start ≤ find_line_start_loop k i buffer line_start ≤ Z.of_nat (i + k) ∧
  (find_line_start_loop k i buffer line_start = 0
   ∨ buffer !!! Z.to_nat (find_line_start_loop k i buffer line_start - 1) = newline) ∧
  ∀ j : nat,
    find_line_start_loop k i buffer line_start ≤ Z.of_nat j < Z.of_nat (i + k) →
    (∀ t : nat, (t ≤ j)%nat → buffer !!! t ≠ zero) →
    buffer !!! j ≠ newline.
Proof.
  induction k as [|k IH]; intros i ls Hls Hstart Hclean; cbn [find_line_start_loop].
  - split; [lia|]. split; [done|]. intros j Hj _. apply Hclean. lia.
  - destruct (is_nul (buffer !!! i)) eqn:Enul.
    + apply is_nul_true in Enul. split; [lia|]. split; [done|].
      intros j Hj Htext. destruct (decide (j < i)%nat) as [Hlt | Hge].
      * apply Hclean. lia.
      * destruct (Htext i); [lia | done].
    + set (ls' := if bool_decide (buffer !!! i = newline)
                  then Z.of_nat i + 1 else ls).
      assert (Hls' : ls ≤ ls' ≤ Z.of_nat (S i)).
      { unfold ls'. case_bool_decide; lia. }
      destruct (IH (S i) ls') as (Hr & Hnl & Hrest).
      * lia.
      * unfold ls'. case_bool_decide as Hc; [|done]. right.
        replace (Z.to_nat (Z.of_nat i + 1 - 1)) with i by lia. done.
      * intros j Hj. unfold ls' in Hj. case_bool_decide as Hc; [lia|].
        destruct (decide (j = i)) as [-> | Hne]; [done|]. apply Hclean. lia.
      * replace (i + S k)%nat with (S i + k)%nat by lia.
        split; [lia|]. split; [done|]. done.
Qed.

(** X26.  [find_line_start(pos)] returns the start of the line [pos] is
    on: an index from 0 to [pos] that is 0 or follows a newline, with no
    newline between it and [pos] in the text before the terminator. *)
Theorem find_line_start_is_line_start buffer pos :
  0 ≤ pos →
  0 ≤ find_line_start buffer pos ≤ pos ∧
  (find_line_start buffer pos = 0
   ∨ buffer !!! Z.to_nat (find_line_start buffer pos - 1) = newline) ∧
  ∀ j : nat,
    find_line_start buffer pos ≤ Z.of_nat j < pos →
    (∀ t : nat, (t ≤ j)%nat → buffer !!! t ≠ zero) →
    buffer !!! j ≠ newline.
Proof.
  intros Hpos. unfold find_line_start.
  destruct (find_line_start_loop_spec buffer (Z.to_nat pos) 0 0) as (Hr & Hnl & Hrest);
    [lia | by left | intros j Hj; lia |].
  split; [lia|]. split; [done|].
  intros j Hj. apply Hrest. lia.
Qed.

Lemma find_line_start_is_line_start_witness :
  0 ≤ find_line_start ["a"; "b"; newline; "c"; "d"; zero]%char 4 ≤ 4.
Proof.
  apply (find_line_start_is_line_start ["a"; "b"; newline; "c"; "d"; zero]%char 4).
  by vm_compute.
Defined.

Lemma shift_left_loop_length k : ∀ i buffer,
  length (shift_left_loop k i buffer) = length buffer.
Proof.
  induction k as [|k IH]; intros i buffer; cbn [shift_left_loop]; [done|].
  by rewrite IH, length_insert.
Qed.

Lemma shift_left_loop_lookup k : ∀ (i : nat) (buffer : list ascii) (j : nat),
  (i + k < length buffer)%nat →
  shift_left_loop k i buffer !!! j
  = if decide (i ≤ j < i + k)%nat then buffer !!! S j else buffer !!! j.
Proof.
  induction k as [|k IH]; intros i buffer j Hlen; cbn [shift_left_loop].
  - by rewrite decide_False by lia.
  - rewrite IH by (rewrite length_insert; lia).
    destruct (decide (j = i)) as [-> | Hne].
    + rewrite decide_False, decide_True by lia.
      rewrite list_lookup_total_insert_eq by lia. done.
    + case_decide as H1; case_decide as H2; try lia;
        rewrite list_lookup_total_insert_ne by lia; done.
Qed.

(** X27.  Backspace removes the character in front of the cursor, moving
    the rest of the buffer one place left, and then writes the terminator
    at index 1999 (not 19999): whatever the text was, it ends at index
    1999 at the latest afterwards. *)
Theorem backspace_cuts_at_1999 buffer cursor_pos :
  length buffer = Z.to_nat 20000 →
  0 < cursor_pos ≤ 19999 →
  snd (backspace buffer cursor_pos) = cursor_pos - 1 ∧
  fst (backspace buffer cursor_pos) !!! 1999%nat = zero ∧
  ∀ j : nat,
    j ≠ 1999%nat → Z.of_nat j < 19999 →
    fst (backspace buffer cursor_pos) !!! j
    = if decide (Z.of_nat j < cursor_pos - 1) then buffer !!! j else buffer !!! S j.
Proof.
  intros Hlen Hcur. unfold backspace.
  destruct (0 <? cursor_pos) eqn:E; [|apply Z.ltb_ge in E; lia].
  cbn [fst snd]. split; [done|].
  assert (Hlen' : length (shift_left_loop (Z.to_nat (19999 - (cursor_pos - 1)))
                                          (Z.to_nat (cursor_pos - 1)) buffer)
                  = Z.to_nat 20000) by (by rewrite shift_left_loop_length).
  split.
  - apply list_lookup_total_insert_eq. rewrite Hlen'. lia.
  - intros j Hj Hlt. rewrite list_lookup_total_insert_ne by done.
    rewrite shift_left_loop_lookup by (rewrite Hlen; lia).
    case_decide as H1; case_decide as H2; try lia; done.
Qed.

Lemma backspace_cuts_at_1999_witness :
  fst (backspace (replicate (Z.to_nat 20000) "a"%char) 5) !!! 1999%nat = zero.
Proof.
  apply (backspace_cuts_at_1999 (replicate (Z.to_nat 20000) "a"%char) 5).
  - apply length_replicate.
  - lia.
Defined.

Lemma shift_right_loop_length k : ∀ i buffer,
  length (shift_right_loop k i buffer) = length buffer.
Proof.
  induction k as [|k IH]; intros i buffer; cbn [shift_right_loop]; [done|].
  by rewrite IH, length_insert.
Qed.

Lemma shift_right_loop_lookup k : ∀ (i : nat) (buffer : list ascii) (j : nat),
  (k ≤ i)%nat → (i < length buffer)%nat →
  shift_right_loop k i buffer !!! j
  = if decide (i - k < j ≤ i)%nat then buffer !!! pred j else buffer !!! j.
Proof.
  induction k as [|k IH]; intros i buffer j Hk Hlen; cbn [shift_right_loop].
  - by rewrite decide_False by lia.
  - rewrite IH by (rewrite ?length_insert; lia).
    destruct (decide (j = i)) as [-> | Hne].
    + rewrite decide_False, decide_True by lia.
      rewrite list_lookup_total_insert_eq by lia. done.
    + case_decide as H1; case_decide as H2; try lia;
        rewrite list_lookup_total_insert_ne by lia; done.
Qed.

(** X28.  Typing a character (or Enter, for the newline) with the cursor
    below 19999 puts it at the cursor, moves the characters from the cursor
    to index 19997 one place right, leaves those in front of the cursor,
    ends the buffer with the terminator and advances the cursor. *)
Theorem insert_char_inserts buffer cursor_pos c :
  length buffer = Z.to_nat 20000 →
  c ≠ zero →
  0 ≤ cursor_pos < 19999 →
  snd (insert_char buffer cursor_pos c) = cursor_pos + 1 ∧
  ∀ j : nat,
    Z.of_nat j ≤ 19999 →
    fst (insert_char buffer cursor_pos c) !!! j
    = if decide (Z.of_nat j = 19999) then zero
      else if decide (Z.of_nat j < cursor_pos) then buffer !!! j
      else if decide (Z.of_nat j = cursor_pos) then c
      else buffer !!! pred j.
Proof.
  intros Hlen Hc Hcur. unfold insert_char.
  rewrite (proj2 (is_nul_false c) Hc).
  destruct (cursor_pos <? 19999) eqn:E; [|apply Z.ltb_ge in E; lia].
  cbn [negb andb fst snd]. split; [done|]. intros j Hj.
  assert (Hlen' : length (shift_right_loop (Z.to_nat (19998 - cursor_pos))
                                           (Z.to_nat 19998) buffer) = Z.to_nat 20000)
    by (by rewrite shift_right_loop_length).
  destruct (decide (Z.of_nat j = 19999)) as [Hlast | Hnot].
  - replace j with (Z.to_nat 19999) by lia.
    apply list_lookup_total_insert_eq. rewrite length_insert, Hlen'. lia.
  - rewrite list_lookup_total_insert_ne by lia.
    destruct (decide (Z.of_nat j = cursor_pos)) as [Hat | Hother].
    + rewrite decide_False by lia.
      replace j with (Z.to_nat cursor_pos) by lia.
      apply list_lookup_total_insert_eq. rewrite Hlen'. lia.
    + rewrite list_lookup_total_insert_ne by lia.
      rewrite shift_right_loop_lookup by (rewrite ?Hlen; lia).
      case_decide as H1; case_decide as H2; try lia; done.
Qed.

Lemma insert_char_inserts_witness :
  snd (insert_char (replicate (Z.to_nat 20000) zero) 0 "a"%char) = 0 + 1.
Proof.
  apply (insert_char_inserts (replicate (Z.to_nat 20000) zero) 0 "a"%char).
  - apply length_replicate.
  - done.
  - lia.
Defined.

End Editor.

(** * The memory map *)

Section MemoryMap.

Lemma find_largest_loop_spec l : ∀ largest,
  0 ≤ largest →
  Forall (λ e, 0 ≤ length_of e < 2 ^ 32) l →
  largest ≤ find_largest_loop l largest ∧
  Forall (λ e, type_of e = MEMORY_AVAILABLE → length_of e ≤ find_largest_loop l largest) l ∧
  (find_largest_loop l largest = largest
   ∨ ∃ e, e ∈ l ∧ type_of e = MEMORY_AVAILABLE ∧ length_of e = find_largest_loop l largest).
Proof.
  induction l as [|e l IH]; intros largest Hpos Hrange; cbn [find_largest_loop].
  - split; [done|]. split; [constructor | by left].
  - apply list.Forall_cons in Hrange as [He Hrange].
    set (largest' := if (type_of e =? MEMORY_AVAILABLE) && (largest <? length_of e)
                     then u32 (length_of e) else largest).
    assert (Hl' : largest ≤ largest' ∧
                  (type_of e = MEMORY_AVAILABLE → length_of e ≤ largest') ∧
                  (largest' = largest ∨
                   (type_of e = MEMORY_AVAILABLE ∧ length_of e = largest'))).
    { unfold largest', u32.
      destruct (type_of e =? MEMORY_AVAILABLE) eqn:Et,
               (largest <? length_of e) eqn:El;
        rewrite ?Z.eqb_eq, ?Z.eqb_neq, ?Z.ltb_lt, ?Z.ltb_ge in *; simpl;
        rewrite ?Z.mod_small by lia; repeat split; try lia; try tauto. }
    destruct Hl' as (Hle & Hub & Hatt).
    destruct (IH largest') as (Hle' & Hubs & Hatts); [lia | done |].
    split; [lia|]. split.
    + constructor; [intros Ht; specialize (Hub Ht); lia | done].
    + destruct Hatts as [Heq | (e' & He' & Ht' & Hl')].
      * rewrite Heq. destruct Hatt as [-> | [Ht Hl]]; [by left|].
        right. exists e. split; [by left | done].
      * right. exists e'. split; [by right | done].
Qed.

(** X29.  With every length below [2^32], [find_largest_available_block]
    returns the largest length among the available entries it visits: it
    is at least each of them, and it is 0 or the length of one of them. *)
Theorem find_largest_is_maximum memory_map memory_map_entries :
  Forall (λ e, 0 ≤ length_of e < 2 ^ 32) memory_map →
  Forall (λ e, type_of e = MEMORY_AVAILABLE →
               length_of e ≤ find_largest_available_block memory_map memory_map_entries)
         (take (Z.to_nat memory_map_entries) memory_map) ∧
  (find_largest_available_block memory_map memory_map_entries = 0
   ∨ ∃ e, e ∈ take (Z.to_nat memory_map_entries) memory_map ∧
          type_of e = MEMORY_AVAILABLE ∧
          length_of e = find_largest_available_block memory_map memory_map_entries).
Proof.
  intros Hrange. unfold find_largest_available_block.
  destruct (find_largest_loop_spec (take (Z.to_nat memory_map_entries) memory_map) 0)
    as (_ & Hub & Hatt); [done | by apply Forall_take | done].
Qed.

Lemma find_largest_is_maximum_witness :
  find_largest_available_block
    [mkMemoryMapEntry 0 651264 1; mkMemoryMapEntry 1048576 15728640 1;
     mkMemoryMapEntry 651264 4096 2] 3 = 0
  ∨ ∃ e, e ∈ take (Z.to_nat 3)
               [mkMemoryMapEntry 0 651264 1; mkMemoryMapEntry 1048576 15728640 1;
                mkMemoryMapEntry 651264 4096 2] ∧
         type_of e = MEMORY_AVAILABLE ∧
         length_of e = find_largest_available_block
                         [mkMemoryMapEntry 0 651264 1; mkMemoryMapEntry 1048576 15728640 1;
                          mkMemoryMapEntry 651264 4096 2] 3.
Proof.
  apply (find_largest_is_maximum
           [mkMemoryMapEntry 0 651264 1; mkMemoryMapEntry 1048576 15728640 1;
            mkMemoryMapEntry 651264 4096 2] 3).
  repeat constructor; by vm_compute.
Defined.

End MemoryMap.
